(** * SnakeGame: the state machine of [src/app/components/SnakeGame.tsx]

    The component keeps six React state variables, four refs mirroring
    four of them, and two closure variables of the touch listeners.  Every
    event (key, touch, timer, restart button) runs its handler on the
    state and refs as they are, then React re-renders and the ref-syncing
    effect of lines 38-43 runs; an event is modelled as that whole unit.
    The interval callback closes over the [direction] of the render that
    set the interval up; the game-loop effect depends on [direction], so
    that is the [direction] of the state the tick finds.

    Numbers are [Z], touch coordinates included.  [Math.random()] is an
    oracle: a tape of rationals, each read in the order the code calls it.
    The [do ... while] loop of [getRandomFood] may spin for ever; on a
    finite tape it ends in [OutOfDraws] when the tape is used up before a
    draw is accepted. *)

From Stdlib Require Import ZArith QArith Qround List Bool String Lia.
Import ListNotations.
Local Open Scope Z_scope.

(** ** Constants (lines 6-11) *)

Record Cell : Type := mkCell { x : Z; y : Z }.

Definition BOARD_SIZE : Z := 15.
Definition INITIAL_SNAKE : list Cell := [ {| x := 7; y := 7 |} ].
Definition INITIAL_DIRECTION : Cell := {| x := 0; y := -1 |}.

(** [s.x === c.x && s.y === c.y], the test of every [some] in the file. *)
Definition same_cell (s c : Cell) : bool := (x s =? x c) && (y s =? y c).

(** [snake.some((s) => s.x === c.x && s.y === c.y)] *)
Definition some_at (snake : list Cell) (c : Cell) : bool :=
  existsb (fun s => same_cell s c) snake.

(** ** Outcomes and the oracle monad *)

Inductive Result (A : Type) : Type :=
| Ok (a : A)
| TypeError          (* reading [.x] of [undefined] *)
| OutOfDraws.        (* the sampling loop has not ended on this tape *)
Arguments Ok {A} a.
Arguments TypeError {A}.
Arguments OutOfDraws {A}.

(** A computation reads [Math.random()] results off a tape and hands back
    what is left of it. *)
Definition M (A : Type) : Type := list Q -> Result (A * list Q).

Definition ret {A} (a : A) : M A := fun tape => Ok (a, tape).
Definition throw {A} : M A := fun _ => TypeError.
Definition bind {A B} (m : M A) (k : A -> M B) : M B :=
  fun tape =>
    match m tape with
    | Ok (a, tape') => k a tape'
    | TypeError => TypeError
    | OutOfDraws => OutOfDraws
    end.

Notation "v <- m ;; k" := (bind m (fun v => k))
  (at level 61, m at next level, right associativity).

(** ** getRandomFood (lines 13-22) *)

(** [Math.floor(r * BOARD_SIZE)] for a result [r] of [Math.random()]. *)
Definition random_coord (r : Q) : Z := Qfloor (r * inject_Z BOARD_SIZE).

(** One pass of the loop body per pair of draws, [x] first, then [y];
    the loop goes round again while the cell is on the snake. *)
Fixpoint getRandomFood (snake : list Cell) (tape : list Q)
  : Result (Cell * list Q) :=
  match tape with
  | rx :: ry :: rest =>
      let newFood := {| x := random_coord rx; y := random_coord ry |} in
      if some_at snake newFood then getRandomFood snake rest
      else Ok (newFood, rest)
  | _ => OutOfDraws
  end.

(** ** Component state (lines 25-35, 128-129) *)

Record GameState : Type := mkGameState {
  snake : list Cell;
  direction : Cell;
  food : Cell;
  score : Z;
  gameOver : bool;
  isPlaying : bool
}.

Record Refs : Type := mkRefs {
  moveRef : Cell;
  gameOverRef : bool;
  foodRef : Cell;
  isPlayingRef : bool
}.

Record Component : Type := mkComponent {
  st : GameState;
  refs : Refs;
  startX : Z;
  startY : Z
}.

Definition setSnake (v : list Cell) (g : GameState) : GameState :=
  mkGameState v (direction g) (food g) (score g) (gameOver g) (isPlaying g).
Definition setDirection (v : Cell) (g : GameState) : GameState :=
  mkGameState (snake g) v (food g) (score g) (gameOver g) (isPlaying g).
Definition setFood (v : Cell) (g : GameState) : GameState :=
  mkGameState (snake g) (direction g) v (score g) (gameOver g) (isPlaying g).
Definition setScore (f : Z -> Z) (g : GameState) : GameState :=
  mkGameState (snake g) (direction g) (food g) (f (score g)) (gameOver g)
    (isPlaying g).
Definition setGameOver (v : bool) (g : GameState) : GameState :=
  mkGameState (snake g) (direction g) (food g) (score g) v (isPlaying g).
Definition setIsPlaying (v : bool) (g : GameState) : GameState :=
  mkGameState (snake g) (direction g) (food g) (score g) (gameOver g) v.

(** A handler's state updates, applied to the component. *)
Definition update (f : GameState -> GameState) (c : Component) : Component :=
  mkComponent (f (st c)) (refs c) (startX c) (startY c).

(** "Keep refs in sync" (lines 38-43). *)
Definition syncRefs (c : Component) : Component :=
  mkComponent (st c)
    {| moveRef := direction (st c);
       gameOverRef := gameOver (st c);
       foodRef := food (st c);
       isPlayingRef := isPlaying (st c) |}
    (startX c) (startY c).

(** The three modes the render tells apart (lines 172-173). *)
Inductive GameStatus : Type := NotStarted | Running | GameOver.

Definition status (g : GameState) : GameStatus :=
  if gameOver g then GameOver
  else if isPlaying g then Running
  else NotStarted.

(** ** handleKey (lines 47-77) *)

Definition key_is (key : string) (cases : list string) : bool :=
  existsb (String.eqb key) cases.

Definition handleKey (key : string) (c : Component) : Component :=
  if gameOverRef (refs c) then c
  else
    let c1 := if negb (isPlayingRef (refs c))
              then update (setIsPlaying true) c else c in
    if key_is key ["ArrowUp"; "w"; "W"]%string then
      if negb (y (moveRef (refs c)) =? 1)
      then update (setDirection {| x := 0; y := -1 |}) c1 else c1
    else if key_is key ["ArrowDown"; "s"; "S"]%string then
      if negb (y (moveRef (refs c)) =? -1)
      then update (setDirection {| x := 0; y := 1 |}) c1 else c1
    else if key_is key ["ArrowLeft"; "a"; "A"]%string then
      if negb (x (moveRef (refs c)) =? 1)
      then update (setDirection {| x := -1; y := 0 |}) c1 else c1
    else if key_is key ["ArrowRight"; "d"; "D"]%string then
      if negb (x (moveRef (refs c)) =? -1)
      then update (setDirection {| x := 1; y := 0 |}) c1 else c1
    else c1.

(** ** Touch listeners (lines 131-158) *)

Definition handleTouchStart (clientX clientY : Z) (c : Component)
  : Component :=
  mkComponent (st c) (refs c) clientX clientY.

Definition handleTouchEnd (clientX clientY : Z) (c : Component)
  : Component :=
  if gameOverRef (refs c) then c
  else
    let c1 := if negb (isPlayingRef (refs c))
              then update (setIsPlaying true) c else c in
    let dx := clientX - startX c in
    let dy := clientY - startY c in
    if Z.abs dx >? Z.abs dy then
      if (dx >? 20) && negb (x (moveRef (refs c)) =? -1)
      then update (setDirection {| x := 1; y := 0 |}) c1
      else if (dx <? -20) && negb (x (moveRef (refs c)) =? 1)
      then update (setDirection {| x := -1; y := 0 |}) c1
      else c1
    else
      if (dy >? 20) && negb (y (moveRef (refs c)) =? -1)
      then update (setDirection {| x := 0; y := 1 |}) c1
      else if (dy <? -20) && negb (y (moveRef (refs c)) =? 1)
      then update (setDirection {| x := 0; y := -1 |}) c1
      else c1.

(** ** Game loop (lines 83-113) *)

(** [(a + d + BOARD_SIZE) % BOARD_SIZE]; [%] takes the sign of the
    dividend, which is [Z.rem]. *)
Definition wrap (a d : Z) : Z := Z.rem (a + d + BOARD_SIZE) BOARD_SIZE.

Definition newHead (head dir : Cell) : Cell :=
  {| x := wrap (x head) (x dir); y := wrap (y head) (y dir) |}.

(** The interval callback: the [setSnake] updater of lines 87-109, with
    the updates it makes to [gameOver], [food] and [score]. *)
Definition intervalCallback (c : Component) : M Component :=
  let prev := snake (st c) in
  match prev with
  | [] => throw
  | head :: _ =>
      let nh := newHead head (direction (st c)) in
      if some_at prev nh then
        ret (update (setGameOver true) c)
      else if same_cell nh (foodRef (refs c)) then
        let newSnake := nh :: prev in
        newFood <- getRandomFood newSnake ;;
        ret (update (fun g => setSnake newSnake
                                (setScore (fun s => s + 1)
                                   (setFood newFood g))) c)
      else
        ret (update (setSnake (nh :: removelast prev)) c)
  end.

(** A timer period.  The interval exists only while the guard of line 84
    lets the effect through. *)
Definition tick (c : Component) : M Component :=
  if gameOver (st c) || negb (isPlaying (st c)) then ret c
  else intervalCallback c.

(** ** handleRestart (lines 115-124) *)

Definition handleRestart (c : Component) : M Component :=
  let newSnake := INITIAL_SNAKE in
  newFood <- getRandomFood newSnake ;;
  ret (update (fun g =>
         setIsPlaying false
           (setGameOver false
              (setScore (fun _ => 0)
                 (setFood newFood
                    (setDirection INITIAL_DIRECTION
                       (setSnake newSnake g)))))) c).

(** ** Mount (lines 25-35, 128-129) *)

Definition mount : M Component :=
  newFood <- getRandomFood INITIAL_SNAKE ;;
  ret (syncRefs
         (mkComponent
            (mkGameState INITIAL_SNAKE INITIAL_DIRECTION newFood 0 false false)
            (mkRefs INITIAL_DIRECTION false newFood false)
            0 0)).

(** ** Events *)

Inductive Event : Type :=
| KeyDown (key : string)
| TouchStart (clientX clientY : Z)
| TouchEnd (clientX clientY : Z)
| Tick
| Restart.

(** The handler of an event.  The restart button is rendered only when
    [gameOver] holds (lines 207-211). *)
Definition handler (e : Event) (c : Component) : M Component :=
  match e with
  | KeyDown key => ret (handleKey key c)
  | TouchStart cx cy => ret (handleTouchStart cx cy c)
  | TouchEnd cx cy => ret (handleTouchEnd cx cy c)
  | Tick => tick c
  | Restart => if gameOver (st c) then handleRestart c else ret c
  end.

(** One event: the handler, then the render and the ref sync. *)
Definition step (e : Event) (c : Component) : M Component :=
  c' <- handler e c ;; ret (syncRefs c').

Fixpoint run (es : list Event) (c : Component) : M Component :=
  match es with
  | [] => ret c
  | e :: es' => c' <- step e c ;; run es' c'
  end.

(** [Math.random()] returns a number in [0, 1). *)
Definition in_unit (r : Q) : bool := Qle_bool 0 r && negb (Qle_bool 1 r).
Definition valid_tape (tape : list Q) : bool := forallb in_unit tape.

(** States the component can be in: after mounting, and after any event
    from such a state, on any tape of [Math.random()] results. *)
Inductive reachable : Component -> Prop :=
| reach_mount tape c tape' :
    valid_tape tape = true ->
    mount tape = Ok (c, tape') -> reachable c
| reach_step c e tape c' tape' :
    reachable c -> valid_tape tape = true ->
    step e c tape = Ok (c', tape') -> reachable c'.

(** ** Cells, directions and tapes *)

Definition on_board (c : Cell) : Prop :=
  0 <= x c < BOARD_SIZE /\ 0 <= y c < BOARD_SIZE.

Definition UP : Cell := {| x := 0; y := -1 |}.
Definition DOWN : Cell := {| x := 0; y := 1 |}.
Definition LEFT : Cell := {| x := -1; y := 0 |}.
Definition RIGHT : Cell := {| x := 1; y := 0 |}.

Definition unit_direction (d : Cell) : Prop :=
  d = UP \/ d = DOWN \/ d = LEFT \/ d = RIGHT.

(** [-D] *)
Definition opposite (d : Cell) : Cell := {| x := - x d; y := - y d |}.

(** The refs hold what the last render saw. *)
Definition synced (c : Component) : Prop :=
  refs c = refs (syncRefs c).

(** The cell a pair of draws is turned into. *)
Definition drawn (rx ry : Q) : Cell :=
  {| x := random_coord rx; y := random_coord ry |}.

(** A stretch of tape whose draws, pair by pair, all land on the snake. *)
Fixpoint all_rejected (snake : list Cell) (draws : list (Q * Q)) : bool :=
  match draws with
  | [] => true
  | (rx, ry) :: more => some_at snake (drawn rx ry) && all_rejected snake more
  end.

Fixpoint flatten (draws : list (Q * Q)) : list Q :=
  match draws with
  | [] => []
  | (rx, ry) :: more => rx :: ry :: flatten more
  end.

(** ** Effects of the handlers *)

(** The input handlers write at most [direction] and [isPlaying]: the
    direction stays or becomes one of the four units, [isPlaying] stays or
    becomes [true], and nothing is written once [gameOverRef] is set. *)
Definition input_effect (c c' : Component) : Prop :=
  exists d p,
    c' = update (fun g => setDirection d (setIsPlaying p g)) c /\
    (d = direction (st c) \/
     (unit_direction d /\ gameOverRef (refs c) = false)) /\
    (p = isPlaying (st c) \/
     (p = true /\ isPlayingRef (refs c) = false
      /\ gameOverRef (refs c) = false)).

(** The three ways a period of a running game can end. *)
Inductive tick_effect (c : Component) (tape : list Q)
  : Component -> list Q -> Prop :=
| tick_collision head tl :
    snake (st c) = head :: tl ->
    some_at (snake (st c)) (newHead head (direction (st c))) = true ->
    tick_effect c tape (update (setGameOver true) c) tape
| tick_eat head tl newFood tape' :
    snake (st c) = head :: tl ->
    some_at (snake (st c)) (newHead head (direction (st c))) = false ->
    same_cell (newHead head (direction (st c))) (foodRef (refs c)) = true ->
    getRandomFood (newHead head (direction (st c)) :: snake (st c)) tape
    = Ok (newFood, tape') ->
    tick_effect c tape
      (update (fun g =>
         setSnake (newHead head (direction (st c)) :: snake (st c))
           (setScore (fun s => s + 1) (setFood newFood g))) c) tape'
| tick_move head tl :
    snake (st c) = head :: tl ->
    some_at (snake (st c)) (newHead head (direction (st c))) = false ->
    same_cell (newHead head (direction (st c))) (foodRef (refs c)) = false ->
    tick_effect c tape
      (update (setSnake (newHead head (direction (st c))
                         :: removelast (snake (st c)))) c) tape.

(** ** Invariants of the reachable states *)

Record Inv (c : Component) : Prop := mkInv {
  inv_synced : synced c;
  inv_direction : unit_direction (direction (st c));
  inv_snake : Forall on_board (snake (st c));
  inv_food : on_board (food (st c));
  inv_length : Z.of_nat (List.length (snake (st c))) = score (st c) + 1;
  inv_gameOver : gameOver (st c) = true -> 1 <= score (st c)
}.

(** ** Kinds of events *)

Definition is_restart (e : Event) : bool :=
  match e with Restart => true | _ => false end.

Definition is_tick (e : Event) : bool :=
  match e with Tick => true | _ => false end.

Definition is_input (e : Event) : bool :=
  match e with KeyDown _ | TouchEnd _ _ => true | _ => false end.

(** The tick is one that eats: the game runs, the new head is on no cell
    of the snake and is the cell [foodRef] holds. *)
Definition eats (c : Component) : bool :=
  negb (gameOver (st c) || negb (isPlaying (st c))) &&
  match snake (st c) with
  | [] => false
  | head :: _ =>
      negb (some_at (snake (st c)) (newHead head (direction (st c)))) &&
      same_cell (newHead head (direction (st c))) (foodRef (refs c))
  end.

(** The keys the [switch] of [handleKey] has a case for. *)
Definition isDirectionKey (key : string) : bool :=
  key_is key ["ArrowUp"; "w"; "W"; "ArrowDown"; "s"; "S";
              "ArrowLeft"; "a"; "A"; "ArrowRight"; "d"; "D"]%string.

(** A key the [switch] has no case for, or the end of a touch that moved
    at most 20 units either way from where it started. *)
Definition malformed (e : Event) (c : Component) : Prop :=
  match e with
  | KeyDown key => isDirectionKey key = false
  | TouchEnd cx cy =>
      Z.abs (cx - startX c) <= 20 /\ Z.abs (cy - startY c) <= 20
  | _ => False
  end.

(** ** Concrete tapes and states *)

(** Draws whose floors are 3 and 3: the food lands on {3,3}. *)
Definition tape_3_3 : list Q := [1 # 5; 1 # 5]%Q.

(** Draws whose floors are 7 and 6: the food lands on {7,6}. *)
Definition tape_7_6 : list Q := [7 # 15; 2 # 5]%Q.

(** The component as mounted with food on {3,3}. *)
Definition mounted : Component :=
  mkComponent
    (mkGameState INITIAL_SNAKE INITIAL_DIRECTION {| x := 3; y := 3 |}
       0 false false)
    (mkRefs INITIAL_DIRECTION false {| x := 3; y := 3 |} false)
    0 0.

(** A running game with the given snake, direction and food. *)
Definition running (sn : list Cell) (d f : Cell) (sc : Z) : Component :=
  mkComponent (mkGameState sn d f sc false true) (mkRefs d false f true) 0 0.

(** A snake of three cells heading back into its second cell. *)
Definition into_second_segment : Component :=
  running [ {| x := 7; y := 7 |}; {| x := 7; y := 8 |}; {| x := 7; y := 9 |} ]
    DOWN {| x := 3; y := 3 |} 2.

(** The state the three-cell snake is left in by its terminal tick. *)
Definition game_over_state : Component :=
  syncRefs (update (setGameOver true) into_second_segment).

(** ** Render (lines 168-220) *)

(** The cell of grid position [i]: [i % BOARD_SIZE] and
    [Math.floor(i / BOARD_SIZE)] (lines 185-186). *)
Definition cellAt (i : Z) : Cell :=
  {| x := Z.rem i BOARD_SIZE; y := i / BOARD_SIZE |}.

(** The three flags of a grid position (lines 187-189). *)
Record CellView : Type := mkCellView {
  isSnake : bool;
  isHead : bool;
  isFood : bool
}.

Definition gridCell (g : GameState) (i : Z) : Result CellView :=
  let c := cellAt i in
  let isSnake := some_at (snake g) c in
  match snake g with
  | [] => TypeError
  | head :: _ =>
      Ok {| isSnake := isSnake;
            isHead := same_cell head c;
            isFood := same_cell (food g) c |}
  end.

(** The backgrounds the class string of a position names (lines 195-197):
    the accent for the head, the light accent for the body, green for the
    food. *)
Inductive Background : Type := Accent | AccentLight | Green.

Definition backgrounds (v : CellView) : list Background :=
  (if isHead v then [Accent] else []) ++
  (if isSnake v && negb (isHead v) then [AccentLight] else []) ++
  (if isFood v then [Green] else []).

(** What is written in a position (line 200): the dot of the head, else
    the apple of the food, else nothing. *)
Inductive Glyph : Type := Dot | Apple | Blank.

Definition glyph (v : CellView) : Glyph :=
  if isHead v then Dot else if isFood v then Apple else Blank.

(** [[...Array(BOARD_SIZE * BOARD_SIZE)].map((_, i) => ...)] *)
Definition indices : list Z :=
  map Z.of_nat (seq 0 (Z.to_nat (BOARD_SIZE * BOARD_SIZE))).

Fixpoint mapM {A B} (f : A -> Result B) (l : list A) : Result (list B) :=
  match l with
  | [] => Ok []
  | a :: l' =>
      match f a with
      | Ok b =>
          match mapM f l' with
          | Ok bs => Ok (b :: bs)
          | TypeError => TypeError
          | OutOfDraws => OutOfDraws
          end
      | TypeError => TypeError
      | OutOfDraws => OutOfDraws
      end
  end.

Definition grid (g : GameState) : Result (list CellView) :=
  mapM (gridCell g) indices.

(** ** The board and the shape of the snake *)

(** The cells of the grid, in the order the render walks them. *)
Definition board : list Cell := map cellAt indices.

(** The grid position of a cell. *)
Definition indexOf (c : Cell) : Z := y c * BOARD_SIZE + x c.

Definition count {A} (f : A -> bool) (l : list A) : nat :=
  List.length (filter f l).

(** What the reachable states keep besides [Inv]. *)
Record Shape (c : Component) : Prop := mkShape {
  shape_nonempty : snake (st c) <> [];
  shape_nodup : NoDup (snake (st c));
  shape_food : ~ In (food (st c)) (snake (st c));
  shape_playing : gameOver (st c) = true -> isPlaying (st c) = true
}.

(** The direction a key asks for: the cases of the [switch]. *)
Definition keyDirection (key : string) : option Cell :=
  if key_is key ["ArrowUp"; "w"; "W"]%string then Some UP
  else if key_is key ["ArrowDown"; "s"; "S"]%string then Some DOWN
  else if key_is key ["ArrowLeft"; "a"; "A"]%string then Some LEFT
  else if key_is key ["ArrowRight"; "d"; "D"]%string then Some RIGHT
  else None.

(** A board with the snake on every cell. *)
Definition full_board_snake : list Cell := board.

(** The game after ArrowUp and one tick from the mount with the food on
    {7,6}: the snake has eaten and the food is on {3,3}. *)
Definition grown : Component :=
  running [ {| x := 7; y := 6 |}; {| x := 7; y := 7 |} ] UP
    {| x := 3; y := 3 |} 1.

(** The game [grown] after ArrowLeft, ArrowDown and one more tick: over,
    the snake having run into its second cell. *)
Definition neck_collision : Component :=
  syncRefs (update (setGameOver true)
              (syncRefs (update (setDirection DOWN) grown))).

(** A running game one cell short of the full board: every cell but {0,0}
    is on the snake, the head on {1,0} heads left, the food is on {0,0}. *)
Definition last_free_cell : Component :=
  running (tl board) LEFT {| x := 0; y := 0 |} 223.

(** ** Proof automation *)

(** Take every [if] of the goal apart. *)
Ltac split_ifs :=
  repeat match goal with
         | |- context [if ?b then _ else _] => destruct b eqn:?
         end.

(** Name the direction and the [isPlaying] a handler has written. *)
Ltac input_cases c :=
  split_ifs;
  try (exists (direction (st c)), (isPlaying (st c));
       split; [destruct c as [[? ? ? ? ? ?] ? ? ?]; reflexivity
              | split; left; reflexivity]);
  match goal with
  | |- exists d p, update (setDirection ?D) (update _ c) = _ /\ _ =>
      exists D, true; split; [reflexivity|];
      split; right; unfold unit_direction, UP, DOWN, LEFT, RIGHT;
      repeat split; auto;
      match goal with H : negb _ = true |- _ =>
        apply negb_true_iff in H; exact H end
  | |- exists d p, update (setDirection ?D) c = _ /\ _ =>
      exists D, (isPlaying (st c));
      split; [destruct c as [[? ? ? ? ? ?] ? ? ?]; reflexivity|];
      split; [right; unfold unit_direction, UP, DOWN, LEFT, RIGHT; auto
             | left; reflexivity]
  | |- exists d p, update (setIsPlaying true) c = _ /\ _ =>
      exists (direction (st c)), true;
      split; [destruct c as [[? ? ? ? ? ?] ? ? ?]; reflexivity|];
      split; [left; reflexivity | right; repeat split; auto;
      match goal with H : negb _ = true |- _ =>
        apply negb_true_iff in H; exact H end]
  end.

(** * Basic facts *)

Lemma same_cell_eq (a b : Cell) : same_cell a b = true <-> a = b.
Proof.
  unfold same_cell. destruct a as [ax ay], b as [bx b_y]; simpl.
  rewrite andb_true_iff, !Z.eqb_eq. split.
  - intros [-> ->]. reflexivity.
  - intros H. injection H as -> ->. split; reflexivity.
Qed.

Lemma some_at_In (snake : list Cell) (c : Cell) :
  some_at snake c = true <-> In c snake.
Proof.
  unfold some_at. rewrite existsb_exists. split.
  - intros [s [Hin Hs]]. apply same_cell_eq in Hs. subst. exact Hin.
  - intros Hin. exists c. split; [exact Hin | apply same_cell_eq; reflexivity].
Qed.

Lemma some_at_not_In (snake : list Cell) (c : Cell) :
  some_at snake c = false <-> ~ In c snake.
Proof.
  rewrite <- some_at_In. destruct (some_at snake c); split; congruence.
Qed.

Lemma in_unit_spec (r : Q) : in_unit r = true -> (0 <= r)%Q /\ (r < 1)%Q.
Proof.
  unfold in_unit. rewrite andb_true_iff, negb_true_iff.
  intros [H0 H1]. apply Qle_bool_iff in H0. split; [exact H0|].
  apply Qnot_le_lt. intros Hle. apply Qle_bool_iff in Hle. congruence.
Qed.

(** [Math.floor(Math.random() * 15)] is one of 0..14. *)
Lemma random_coord_range (r : Q) :
  in_unit r = true -> 0 <= random_coord r < BOARD_SIZE.
Proof.
  intros Hr. apply in_unit_spec in Hr. destruct Hr as [H0 H1].
  unfold random_coord, BOARD_SIZE. split.
  - change 0 with (Qfloor (inject_Z 0)). apply Qfloor_resp_le.
    change (inject_Z 0) with (0 * inject_Z 15)%Q.
    apply Qmult_le_compat_r; [exact H0 | discriminate].
  - rewrite Zlt_Qlt.
    apply Qle_lt_trans with (r * inject_Z 15)%Q; [apply Qfloor_le|].
    change (inject_Z 15) with (1 * inject_Z 15)%Q at 2.
    apply Qmult_lt_compat_r; [reflexivity | exact H1].
Qed.

(** Every coordinate of the board is the floor of some draw. *)
Lemma random_coord_onto (v : Z) :
  0 <= v < BOARD_SIZE ->
  in_unit (v # 15) = true /\ random_coord (v # 15) = v.
Proof.
  unfold BOARD_SIZE. intros Hv.
  assert (Hc : v = 0 \/ v = 1 \/ v = 2 \/ v = 3 \/ v = 4 \/ v = 5 \/ v = 6
               \/ v = 7 \/ v = 8 \/ v = 9 \/ v = 10 \/ v = 11 \/ v = 12
               \/ v = 13 \/ v = 14) by lia.
  repeat (destruct Hc as [-> | Hc]; [split; reflexivity|]).
  subst v. split; reflexivity.
Qed.

Lemma drawn_on_board (rx ry : Q) :
  in_unit rx = true -> in_unit ry = true -> on_board (drawn rx ry).
Proof.
  intros Hx Hy. split; simpl; apply random_coord_range; assumption.
Qed.

(** ** The sampling loop *)

(** The loop reads the tape two draws at a time. *)
Lemma tape_pairs_ind (P : list Q -> Prop) :
  P [] -> (forall r, P [r]) ->
  (forall rx ry rest, P rest -> P (rx :: ry :: rest)) ->
  forall tape, P tape.
Proof.
  intros H0 H1 H2 tape.
  assert (H : P tape /\ forall r, P (r :: tape)).
  { induction tape as [|a tl [IHa IHb]].
    - split; [exact H0 | exact H1].
    - split; [apply IHb | intros r; apply H2; exact IHa]. }
  exact (proj1 H).
Qed.

(** Whatever the loop returns is off the snake, and is the cell of the
    first pair of draws that is. *)
Lemma getRandomFood_sound (snake : list Cell) (tape : list Q) :
  forall c rest,
    getRandomFood snake tape = Ok (c, rest) ->
    ~ In c snake /\
    exists rejected rx ry,
      tape = flatten rejected ++ rx :: ry :: rest /\
      all_rejected snake rejected = true /\
      c = drawn rx ry.
Proof.
  induction tape as [|r|rx ry tl IH] using tape_pairs_ind;
    intros c rest H; try discriminate.
  simpl in H. fold (drawn rx ry) in H.
  destruct (some_at snake (drawn rx ry)) eqn:Hs.
  - destruct (IH c rest H) as [Hn [rej [rx' [ry' [Ht [Hr Hc]]]]]].
    split; [exact Hn|].
    exists ((rx, ry) :: rej), rx', ry'. simpl. rewrite Hs, Hr, Ht.
    repeat split; try reflexivity. exact Hc.
  - injection H as <- <-. split; [apply some_at_not_In; exact Hs|].
    exists [], rx, ry. repeat split; reflexivity.
Qed.

(** The loop ends at the first pair of draws that misses the snake. *)
Lemma getRandomFood_complete (snake : list Cell) :
  forall rejected rx ry rest,
    all_rejected snake rejected = true ->
    some_at snake (drawn rx ry) = false ->
    getRandomFood snake (flatten rejected ++ rx :: ry :: rest)
    = Ok (drawn rx ry, rest).
Proof.
  induction rejected as [|[qx qy] more IH]; intros rx ry rest Hr Hm; simpl.
  - fold (drawn rx ry). rewrite Hm. reflexivity.
  - simpl in Hr. apply andb_true_iff in Hr. destruct Hr as [Hq Hr].
    fold (drawn qx qy). rewrite Hq. apply IH; assumption.
Qed.

Lemma valid_tape_app (a b : list Q) :
  valid_tape (a ++ b) = valid_tape a && valid_tape b.
Proof. apply forallb_app. Qed.

(** On a tape of [Math.random()] results the food is a board cell, and
    the tape left over is one too. *)
Lemma getRandomFood_valid (snake : list Cell) (tape : list Q) :
  forall c rest,
    valid_tape tape = true ->
    getRandomFood snake tape = Ok (c, rest) ->
    on_board c /\ valid_tape rest = true.
Proof.
  intros c rest Hv H.
  destruct (getRandomFood_sound _ _ _ _ H) as [_ [rej [rx [ry [-> [_ ->]]]]]].
  rewrite valid_tape_app in Hv. apply andb_true_iff in Hv.
  destruct Hv as [_ Hv]. simpl in Hv.
  apply andb_true_iff in Hv. destruct Hv as [Hx Hv].
  apply andb_true_iff in Hv. destruct Hv as [Hy Hv].
  split; [apply drawn_on_board; assumption | exact Hv].
Qed.

(** ** Wrapping at the edges *)

Lemma wrap_mod (a d : Z) :
  0 <= a < BOARD_SIZE -> -1 <= d <= 1 ->
  wrap a d = (a + d) mod BOARD_SIZE /\ 0 <= wrap a d < BOARD_SIZE.
Proof.
  unfold wrap, BOARD_SIZE. intros Ha Hd.
  rewrite Z.rem_mod_nonneg by lia.
  replace (a + d + 15) with (a + d + 1 * 15) by lia.
  rewrite Z_mod_plus_full. split; [reflexivity|].
  apply Z.mod_pos_bound. lia.
Qed.

Lemma wrap_moves (a d : Z) :
  0 <= a < BOARD_SIZE -> d = 1 \/ d = -1 -> wrap a d <> a.
Proof.
  unfold wrap, BOARD_SIZE. intros Ha Hd.
  rewrite Z.rem_mod_nonneg by lia.
  Z.div_mod_to_equations. lia.
Qed.

Lemma unit_direction_cases (d : Cell) :
  unit_direction d ->
  (x d = 0 /\ (y d = 1 \/ y d = -1)) \/ (y d = 0 /\ (x d = 1 \/ x d = -1)).
Proof.
  intros [-> | [-> | [-> | ->]]]; simpl; lia.
Qed.

Lemma newHead_on_board (h d : Cell) :
  on_board h -> unit_direction d -> on_board (newHead h d).
Proof.
  intros [Hx Hy] Hd. apply unit_direction_cases in Hd.
  split; simpl; apply wrap_mod; try assumption; lia.
Qed.

Lemma newHead_moves (h d : Cell) :
  on_board h -> unit_direction d -> newHead h d <> h.
Proof.
  intros [Hx Hy] Hd Heq. apply unit_direction_cases in Hd.
  destruct h as [hx hy]. unfold newHead in Heq. simpl in *.
  injection Heq as Ex Ey.
  destruct Hd as [[_ Hd] | [_ Hd]].
  - exact (wrap_moves hy (y d) Hy Hd Ey).
  - exact (wrap_moves hx (x d) Hx Hd Ex).
Qed.

Lemma Forall_removelast {A} (P : A -> Prop) (l : list A) :
  Forall P l -> Forall P (removelast l).
Proof.
  induction 1 as [|a l Ha Hl IH]; simpl; [constructor|].
  destruct l; [constructor | constructor; assumption].
Qed.

Lemma length_removelast_cons {A} (a : A) (l : list A) :
  List.length (removelast (a :: l)) = List.length l.
Proof.
  revert a. induction l as [|b l IH]; intros a; [reflexivity|].
  change (removelast (a :: b :: l)) with (a :: removelast (b :: l)).
  cbn [List.length]. rewrite IH. reflexivity.
Qed.

(** ** What each handler can do to the state *)

Lemma handleKey_effect (key : string) (c : Component) :
  input_effect c (handleKey key c).
Proof.
  unfold input_effect, handleKey. input_cases c.
Qed.

Lemma handleTouchEnd_effect (cx cy : Z) (c : Component) :
  input_effect c (handleTouchEnd cx cy c).
Proof.
  unfold input_effect, handleTouchEnd. cbv zeta. input_cases c.
Qed.

(** ** What the timer and the restart button can do *)

Lemma intervalCallback_effect (c : Component) (tape : list Q) c' tape' :
  intervalCallback c tape = Ok (c', tape') -> tick_effect c tape c' tape'.
Proof.
  unfold intervalCallback.
  destruct (snake (st c)) as [|head tl] eqn:Hs; [discriminate|].
  destruct (some_at (head :: tl) (newHead head (direction (st c)))) eqn:Hc.
  - intros H. injection H as <- <-. rewrite <- Hs in Hc.
    eapply tick_collision; eassumption.
  - destruct (same_cell (newHead head (direction (st c))) (foodRef (refs c)))
      eqn:Hf.
    + unfold bind.
      destruct (getRandomFood _ tape) as [[newFood rest]| |] eqn:Hg;
        try discriminate.
      intros H. injection H as <- <-. rewrite <- Hs in *.
      eapply tick_eat; eassumption.
    + intros H. injection H as <- <-.
      change (match tl with [] => [] | _ :: _ => head :: removelast tl end)
        with (removelast (head :: tl)).
      rewrite <- Hs in *. eapply tick_move; eassumption.
Qed.

Lemma tick_cases (c : Component) (tape : list Q) c' tape' :
  tick c tape = Ok (c', tape') ->
  (status (st c) <> Running /\ c' = c /\ tape' = tape) \/
  (status (st c) = Running /\ tick_effect c tape c' tape').
Proof.
  unfold tick, status.
  destruct (gameOver (st c)); simpl.
  - intros H. injection H as <- <-. left. repeat split. discriminate.
  - destruct (isPlaying (st c)); simpl.
    + intros H. right. split; [reflexivity|].
      apply intervalCallback_effect. exact H.
    + intros H. injection H as <- <-. left. repeat split. discriminate.
Qed.

Lemma handleRestart_effect (c : Component) (tape : list Q) c' tape' :
  handleRestart c tape = Ok (c', tape') ->
  exists newFood,
    getRandomFood INITIAL_SNAKE tape = Ok (newFood, tape') /\
    c' = mkComponent
           (mkGameState INITIAL_SNAKE INITIAL_DIRECTION newFood 0 false false)
           (refs c) (startX c) (startY c).
Proof.
  unfold handleRestart, bind.
  destruct (getRandomFood INITIAL_SNAKE tape) as [[newFood rest]| |];
    try discriminate.
  intros H. injection H as <- <-. exists newFood. split; reflexivity.
Qed.

(** ** The invariants hold *)

Lemma synced_syncRefs (c : Component) : synced (syncRefs c).
Proof. reflexivity. Qed.

Lemma Inv_mount (tape : list Q) c tape' :
  valid_tape tape = true -> mount tape = Ok (c, tape') -> Inv c.
Proof.
  unfold mount, bind. intros Hv.
  destruct (getRandomFood INITIAL_SNAKE tape) as [[newFood rest]| |] eqn:Hg;
    try discriminate.
  intros H. injection H as <- <-.
  destruct (getRandomFood_valid _ _ _ _ Hv Hg) as [Hb _].
  constructor; simpl; try reflexivity; try discriminate.
  - left. reflexivity.
  - repeat constructor; simpl; unfold BOARD_SIZE; lia.
  - exact Hb.
Qed.

Lemma Inv_input (c c' : Component) :
  Inv c -> input_effect c c' -> Inv (syncRefs c').
Proof.
  intros [Hs Hd Hb Hf Hl Hg] [d [p [-> [Hd' Hp']]]].
  constructor; simpl; try assumption; try reflexivity.
  destruct Hd' as [-> | [Hu _]]; assumption.
Qed.

Lemma Inv_tick (c : Component) (tape : list Q) c' tape' :
  Inv c -> valid_tape tape = true ->
  tick_effect c tape c' tape' -> Inv (syncRefs c').
Proof.
  intros [Hs Hd Hb Hf Hl Hg] Hv Ht.
  destruct Ht as [head tl Hsn Hc | head tl newFood rest Hsn Hc Hfd Hgen
                 | head tl Hsn Hc Hfd];
    constructor; simpl; try assumption; try reflexivity.
  - (* a collision needs a second cell *)
    intros _. rewrite Hsn in Hl, Hb, Hc.
    destruct tl as [|c2 tl]; [|simpl List.length in Hl; lia].
    exfalso. simpl in Hc. rewrite orb_false_r in Hc.
    apply same_cell_eq in Hc. symmetry in Hc. revert Hc.
    apply newHead_moves; [|exact Hd]. inversion Hb; assumption.
  - constructor; [|exact Hb]. apply newHead_on_board; [|exact Hd].
    rewrite Hsn in Hb. inversion Hb; assumption.
  - apply (getRandomFood_valid _ _ _ _ Hv Hgen).
  - lia.
  - intros Hover. specialize (Hg Hover). lia.
  - constructor; [|apply Forall_removelast; exact Hb].
    apply newHead_on_board; [|exact Hd].
    rewrite Hsn in Hb. inversion Hb; assumption.
  - rewrite Hsn, length_removelast_cons. rewrite Hsn in Hl.
    simpl List.length in Hl. lia.
Qed.

Lemma Inv_restart (c : Component) (tape : list Q) c' tape' :
  Inv c -> valid_tape tape = true ->
  handleRestart c tape = Ok (c', tape') -> Inv (syncRefs c').
Proof.
  intros _ Hv H. apply handleRestart_effect in H.
  destruct H as [newFood [Hg ->]].
  destruct (getRandomFood_valid _ _ _ _ Hv Hg) as [Hb _].
  constructor; simpl; try reflexivity; try discriminate.
  - left. reflexivity.
  - repeat constructor; simpl; unfold BOARD_SIZE; lia.
  - exact Hb.
Qed.

Lemma Inv_syncRefs (c : Component) : Inv c -> syncRefs c = c.
Proof.
  intros H. destruct H as [Hs _ _ _ _ _]. unfold synced in Hs.
  destruct c as [g r sx sy]. unfold syncRefs in *. simpl in *.
  rewrite <- Hs. reflexivity.
Qed.

Lemma Inv_step (e : Event) (c : Component) (tape : list Q) c' tape' :
  Inv c -> valid_tape tape = true ->
  step e c tape = Ok (c', tape') -> Inv c'.
Proof.
  intros HI Hv. unfold step, bind.
  destruct (handler e c tape) as [[c1 t1]| |] eqn:Hh; try discriminate.
  intros H. injection H as <- <-.
  destruct e as [key | cx cy | cx cy | | ]; simpl in Hh.
  - injection Hh as <- <-. apply (Inv_input c); [exact HI|].
    apply handleKey_effect.
  - injection Hh as <- <-. destruct HI. constructor; simpl; assumption
      || reflexivity.
  - injection Hh as <- <-. apply (Inv_input c); [exact HI|].
    apply handleTouchEnd_effect.
  - apply tick_cases in Hh. destruct Hh as [[_ [-> ->]] | [_ Ht]].
    + rewrite Inv_syncRefs; assumption.
    + eapply Inv_tick; eassumption.
  - destruct (gameOver (st c)).
    + eapply Inv_restart; eassumption.
    + injection Hh as <- <-. rewrite Inv_syncRefs; assumption.
Qed.

Lemma reachable_Inv (c : Component) : reachable c -> Inv c.
Proof.
  induction 1 as [tape c tape' Hv Hm | c e tape c' tape' _ IH Hv Hs].
  - eapply Inv_mount; eassumption.
  - eapply Inv_step; eassumption.
Qed.

Lemma mount_tape_3_3 : mount tape_3_3 = Ok (mounted, []).
Proof. reflexivity. Qed.

Lemma reachable_mounted : reachable mounted.
Proof.
  apply (reach_mount tape_3_3 mounted []); reflexivity.
Qed.

(** * The wrap invariant *)

(** C6: from a head on the board, a step in any of the four unit
    directions gives a head on the board, the coordinates taken modulo 15
    so that leaving by one edge enters by the opposite one; from {7,0} a
    step up gives {7,14}; and every cell of the snake of a reachable state
    is on the board. *)
Theorem newHead_wraps_on_board (h d : Cell) (c : Component) :
  on_board h -> unit_direction d -> reachable c ->
  on_board (newHead h d) /\
  newHead h d = {| x := (x h + x d) mod BOARD_SIZE;
                   y := (y h + y d) mod BOARD_SIZE |} /\
  newHead {| x := 7; y := 0 |} UP = {| x := 7; y := 14 |} /\
  Forall on_board (snake (st c)).
Proof.
  intros Hh Hd Hc. split; [apply newHead_on_board; assumption|].
  split; [|split; [reflexivity | apply reachable_Inv; exact Hc]].
  destruct Hh as [Hx Hy]. apply unit_direction_cases in Hd.
  unfold newHead. f_equal; apply wrap_mod; try assumption; lia.
Qed.

Lemma newHead_wraps_on_board_witness :
  on_board (newHead {| x := 7; y := 0 |} UP) /\
  newHead {| x := 7; y := 0 |} UP
  = {| x := (7 + 0) mod BOARD_SIZE; y := (0 + -1) mod BOARD_SIZE |} /\
  newHead {| x := 7; y := 0 |} UP = {| x := 7; y := 14 |} /\
  Forall on_board (snake (st mounted)).
Proof.
  apply (newHead_wraps_on_board {| x := 7; y := 0 |} UP mounted).
  - unfold on_board, BOARD_SIZE; simpl; lia.
  - left; reflexivity.
  - exact reachable_mounted.
Defined.

(** * The terminal tick *)

(** C3: a tick of a running game whose wrapped new head is on a cell of
    the snake, the tail included, ends the game and leaves the snake, the
    food and the score as they were. *)
Theorem tick_collision_ends_game
  (c : Component) (tape : list Q) (head : Cell) (tl : list Cell) :
  status (st c) = Running ->
  snake (st c) = head :: tl ->
  In (newHead head (direction (st c))) (snake (st c)) ->
  exists c',
    step Tick c tape = Ok (c', tape) /\
    status (st c') = GameOver /\
    snake (st c') = snake (st c) /\
    food (st c') = food (st c) /\
    score (st c') = score (st c).
Proof.
  intros Hrun Hsn Hin. apply some_at_In in Hin.
  exists (syncRefs (update (setGameOver true) c)).
  split; [|repeat split].
  unfold step, bind, handler, tick.
  unfold status in Hrun.
  destruct (gameOver (st c)); [discriminate|].
  destruct (isPlaying (st c)); [|discriminate]. simpl.
  unfold intervalCallback. rewrite Hsn in *. rewrite Hin. reflexivity.
Qed.

Lemma tick_collision_ends_game_witness :
  exists c',
    step Tick into_second_segment [] = Ok (c', []) /\
    status (st c') = GameOver /\
    snake (st c') = snake (st into_second_segment) /\
    food (st c') = food (st into_second_segment) /\
    score (st c') = score (st into_second_segment).
Proof.
  apply (tick_collision_ends_game into_second_segment []
           {| x := 7; y := 7 |} [ {| x := 7; y := 8 |}; {| x := 7; y := 9 |} ]).
  - reflexivity.
  - reflexivity.
  - simpl. right. left. reflexivity.
Defined.

(** A tail not yet dropped counts: four cells in a square, the head
    stepping onto the tail. *)
Example collision_with_tail :
  let c := running [ {| x := 0; y := 0 |}; {| x := 1; y := 0 |};
                     {| x := 1; y := 1 |}; {| x := 0; y := 1 |} ]
             DOWN {| x := 3; y := 3 |} 3 in
  exists c', step Tick c [] = Ok (c', []) /\ gameOver (st c') = true
             /\ snake (st c') = snake (st c).
Proof. eexists. repeat split. Qed.

(** * A single cell cannot run into itself *)

(** C10: in a reachable state whose snake is one cell, the collision test
    of the tick is false, since a step of one unit modulo 15 never lands
    on the cell it left; a tick then never ends the game; and a reachable
    state whose game is over has a score of at least 1. *)
Theorem single_cell_never_collides (c : Component) (h : Cell) :
  reachable c ->
  snake (st c) = [h] ->
  newHead h (direction (st c)) <> h /\
  some_at (snake (st c)) (newHead h (direction (st c))) = false /\
  (forall tape c' tape',
      step Tick c tape = Ok (c', tape') ->
      gameOver (st c') = gameOver (st c)) /\
  (forall r, reachable r -> status (st r) = GameOver -> 1 <= score (st r)).
Proof.
  intros Hr Hsn. pose proof (reachable_Inv c Hr) as HI.
  assert (Hmv : newHead h (direction (st c)) <> h).
  { apply newHead_moves; [|apply HI].
    pose proof (inv_snake c HI) as Hb. rewrite Hsn in Hb.
    inversion Hb; assumption. }
  assert (Hno : some_at (snake (st c)) (newHead h (direction (st c))) = false).
  { rewrite Hsn. simpl. rewrite orb_false_r.
    destruct (same_cell h (newHead h (direction (st c)))) eqn:E;
      [|reflexivity].
    apply same_cell_eq in E. congruence. }
  split; [exact Hmv|]. split; [exact Hno|]. split.
  - intros tape c' tape'. unfold step, bind.
    destruct (handler Tick c tape) as [[c1 t1]| |] eqn:Hh; try discriminate.
    intros H. injection H as <- <-. simpl in Hh.
    apply tick_cases in Hh. destruct Hh as [[_ [-> _]] | [_ Ht]];
      [reflexivity|].
    destruct Ht as [head tl Hs Hc | head tl nf t' Hs Hc Hf Hg
                   | head tl Hs Hc Hf]; try reflexivity.
    rewrite Hsn in Hs. injection Hs as <- <-. congruence.
  - intros r Hrr Hst. apply (inv_gameOver r (reachable_Inv r Hrr)).
    unfold status in Hst. destruct (gameOver (st r)); [reflexivity|].
    destruct (isPlaying (st r)); discriminate.
Qed.

Lemma single_cell_never_collides_witness :
  newHead {| x := 7; y := 7 |} (direction (st mounted))
  <> {| x := 7; y := 7 |} /\
  some_at (snake (st mounted))
    (newHead {| x := 7; y := 7 |} (direction (st mounted))) = false /\
  (forall tape c' tape',
      step Tick mounted tape = Ok (c', tape') ->
      gameOver (st c') = gameOver (st mounted)) /\
  (forall r, reachable r -> status (st r) = GameOver -> 1 <= score (st r)).
Proof.
  apply (single_cell_never_collides mounted {| x := 7; y := 7 |}).
  - exact reachable_mounted.
  - reflexivity.
Defined.

(** * Eating *)

(** C4: a tick of a running game whose wrapped new head is the food cell
    and is on no cell of the snake gives the old snake with the new head in
    front, one cell longer, and a score one higher; the new food is the
    first cell drawn that is off the new snake, a cell of the board.  The
    loop returns as soon as the tape has such a draw; whenever the tick
    returns, on any tape, its result is as described.  From the snake
    [{7,7}] heading up with the food on {7,6} the tick gives the snake
    [{7,6}; {7,7}] and the score 1. *)
Theorem tick_eats_food
  (c : Component) (head : Cell) (tl : list Cell)
  (rejected : list (Q * Q)) (rx ry : Q) (rest : list Q) :
  let nh := newHead head (direction (st c)) in
  status (st c) = Running ->
  synced c ->
  snake (st c) = head :: tl ->
  ~ In nh (snake (st c)) ->
  nh = food (st c) ->
  in_unit rx = true -> in_unit ry = true ->
  all_rejected (nh :: snake (st c)) rejected = true ->
  ~ In (drawn rx ry) (nh :: snake (st c)) ->
  (exists c',
      step Tick c (flatten rejected ++ rx :: ry :: rest) = Ok (c', rest) /\
      snake (st c') = nh :: snake (st c) /\
      List.length (snake (st c')) = S (List.length (snake (st c))) /\
      score (st c') = score (st c) + 1 /\
      food (st c') = drawn rx ry /\
      on_board (food (st c')) /\
      ~ In (food (st c')) (snake (st c'))) /\
  (forall tape c' tape',
      valid_tape tape = true ->
      step Tick c tape = Ok (c', tape') ->
      snake (st c') = nh :: snake (st c) /\
      score (st c') = score (st c) + 1 /\
      on_board (food (st c')) /\
      ~ In (food (st c')) (snake (st c'))) /\
  (exists c',
      step Tick
        (running [ {| x := 7; y := 7 |} ] UP {| x := 7; y := 6 |} 0)
        tape_3_3 = Ok (c', []) /\
      snake (st c') = [ {| x := 7; y := 6 |}; {| x := 7; y := 7 |} ] /\
      score (st c') = 1).
Proof.
  intros nh Hrun Hsy Hsn Hnot Hfood Hrx Hry Hrej Hfree.
  assert (Hguard : gameOver (st c) || negb (isPlaying (st c)) = false).
  { unfold status in Hrun. destruct (gameOver (st c)); [discriminate|].
    destruct (isPlaying (st c)); [reflexivity | discriminate]. }
  assert (Hc : some_at (head :: tl) nh = false).
  { rewrite <- Hsn. apply some_at_not_In. exact Hnot. }
  assert (Hf : same_cell nh (foodRef (refs c)) = true).
  { rewrite Hsy. simpl. apply same_cell_eq. exact Hfood. }
  assert (Hstep : forall tape,
    step Tick c tape =
    match getRandomFood (nh :: head :: tl) tape with
    | Ok (newFood, t) =>
        Ok (syncRefs (update (fun g => setSnake (nh :: head :: tl)
              (setScore (fun s => s + 1) (setFood newFood g))) c), t)
    | TypeError => TypeError
    | OutOfDraws => OutOfDraws
    end).
  { intros tape. unfold step, bind, handler, tick. rewrite Hguard.
    unfold intervalCallback. rewrite Hsn. fold nh. rewrite Hc, Hf.
    unfold bind. destruct (getRandomFood (nh :: head :: tl) tape)
      as [[nf t]| |]; reflexivity. }
  split; [|split].
  - eexists. rewrite Hstep. rewrite <- Hsn.
    rewrite (getRandomFood_complete _ rejected rx ry rest Hrej)
      by (apply some_at_not_In; exact Hfree).
    split; [reflexivity|]. simpl. rewrite Hsn. repeat split.
    + apply random_coord_range; exact Hrx.
    + apply random_coord_range; exact Hrx.
    + apply random_coord_range; exact Hry.
    + apply random_coord_range; exact Hry.
    + rewrite <- Hsn. exact Hfree.
  - intros tape c' tape' Hv. rewrite Hstep.
    destruct (getRandomFood (nh :: head :: tl) tape) as [[nf t]| |] eqn:Hg;
      try discriminate.
    intros H. injection H as <- <-. simpl. rewrite Hsn.
    repeat split; try apply (getRandomFood_valid _ _ _ _ Hv Hg).
    apply (getRandomFood_sound _ _ _ _ Hg).
  - eexists. repeat split.
Qed.

Lemma tick_eats_food_witness :
  exists c',
    step Tick (running [ {| x := 7; y := 7 |} ] UP {| x := 7; y := 6 |} 0)
      (flatten [ (7 # 15, 7 # 15); (7 # 15, 2 # 5) ]%Q
       ++ (1 # 5)%Q :: (1 # 5)%Q :: []) = Ok (c', []) /\
    snake (st c') = [ {| x := 7; y := 6 |}; {| x := 7; y := 7 |} ] /\
    score (st c') = 1 /\
    food (st c') = {| x := 3; y := 3 |}.
Proof.
  destruct (tick_eats_food
              (running [ {| x := 7; y := 7 |} ] UP {| x := 7; y := 6 |} 0)
              {| x := 7; y := 7 |} []
              [ (7 # 15, 7 # 15); (7 # 15, 2 # 5) ]%Q (1 # 5)%Q (1 # 5)%Q [])
    as [[c' [Hs [Hsn [_ [Hsc [Hf _]]]]]] _].
  - reflexivity.
  - reflexivity.
  - reflexivity.
  - simpl. intros [H | []]. discriminate H.
  - reflexivity.
  - reflexivity.
  - reflexivity.
  - reflexivity.
  - simpl. intros [H | [H | []]]; discriminate H.
  - exists c'. repeat split; assumption.
Defined.

(** * The standard move and the length of the snake *)

Lemma input_effect_snake (c c' : Component) :
  input_effect c c' -> snake (st c') = snake (st c).
Proof. intros [d [p [-> _]]]. reflexivity. Qed.

(** What an event other than a restart does to the length. *)
Lemma step_length (e : Event) (c : Component) (tape : list Q) c' tape' :
  is_restart e = false ->
  step e c tape = Ok (c', tape') ->
  List.length (snake (st c')) =
  if is_tick e && eats c then S (List.length (snake (st c)))
  else List.length (snake (st c)).
Proof.
  intros He. unfold step, bind.
  destruct (handler e c tape) as [[c1 t1]| |] eqn:Hh; try discriminate.
  intros H. injection H as <- <-.
  destruct e as [key | cx cy | cx cy | | ]; simpl in *; try discriminate.
  - injection Hh as <- <-.
    rewrite (input_effect_snake c _ (handleKey_effect key c)). reflexivity.
  - injection Hh as <- <-. reflexivity.
  - injection Hh as <- <-.
    rewrite (input_effect_snake c _ (handleTouchEnd_effect cx cy c)).
    reflexivity.
  - unfold eats. unfold tick in Hh.
    destruct (gameOver (st c) || negb (isPlaying (st c)));
      [injection Hh as <- <-; reflexivity|].
    apply intervalCallback_effect in Hh.
    destruct Hh as [head tl Hs Hc | head tl nf t' Hs Hc Hf Hg
                   | head tl Hs Hc Hf];
      cbn [st syncRefs update snake setSnake setGameOver];
      rewrite Hs in *; rewrite Hc, Hf || rewrite Hc;
      cbn [negb andb]; try reflexivity.
    cbn [List.length]. rewrite length_removelast_cons. reflexivity.
Qed.

Lemma run_length (es : list Event) :
  forall c tape c' tape',
    forallb (fun e => negb (is_restart e)) es = true ->
    run es c tape = Ok (c', tape') ->
    (List.length (snake (st c)) <= List.length (snake (st c')))%nat.
Proof.
  induction es as [|e es IH]; intros c tape c' tape' Hes; simpl.
  - intros H. injection H as <- <-. apply Nat.le_refl.
  - simpl in Hes. apply andb_true_iff in Hes. destruct Hes as [He Hes].
    apply negb_true_iff in He. unfold bind.
    destruct (step e c tape) as [[c1 t1]| |] eqn:Hs; try discriminate.
    intros H. apply (IH _ _ _ _ Hes) in H.
    rewrite (step_length _ _ _ _ _ He Hs) in H.
    destruct (is_tick e && eats c); lia.
Qed.

(** C5: a tick of a running game whose wrapped new head is on no cell of
    the snake and is not the food cell gives the new head in front of the
    old snake without its last cell, of the same length.  Over the ticks
    and input events of a game the length never goes down, and an event
    makes it one longer exactly when it is a tick that eats; otherwise it
    leaves it as it was. *)
Theorem tick_moves_snake
  (c : Component) (tape : list Q) (head : Cell) (tl : list Cell) :
  status (st c) = Running ->
  synced c ->
  snake (st c) = head :: tl ->
  ~ In (newHead head (direction (st c))) (snake (st c)) ->
  newHead head (direction (st c)) <> food (st c) ->
  (exists c',
      step Tick c tape = Ok (c', tape) /\
      snake (st c') =
        newHead head (direction (st c)) :: removelast (snake (st c)) /\
      List.length (snake (st c')) = List.length (snake (st c))) /\
  (forall e g t g' t',
      is_restart e = false ->
      step e g t = Ok (g', t') ->
      List.length (snake (st g')) =
      if is_tick e && eats g then S (List.length (snake (st g)))
      else List.length (snake (st g))) /\
  (forall es g t g' t',
      forallb (fun e => negb (is_restart e)) es = true ->
      run es g t = Ok (g', t') ->
      (List.length (snake (st g)) <= List.length (snake (st g')))%nat).
Proof.
  intros Hrun Hsy Hsn Hnot Hnf.
  split; [|split; [exact step_length | exact run_length]].
  exists (syncRefs (update (setSnake (newHead head (direction (st c))
                                       :: removelast (snake (st c)))) c)).
  split; [|split; [reflexivity|]].
  - unfold step, bind, handler, tick. unfold status in Hrun.
    destruct (gameOver (st c)); [discriminate|].
    destruct (isPlaying (st c)); [|discriminate]. simpl.
    unfold intervalCallback.
    apply some_at_not_In in Hnot. rewrite Hsn in *. rewrite Hnot.
    destruct (same_cell (newHead head (direction (st c))) (foodRef (refs c)))
      eqn:Hf; [|reflexivity].
    apply same_cell_eq in Hf. rewrite Hsy in Hf. simpl in Hf. contradiction.
  - simpl. rewrite Hsn, length_removelast_cons. reflexivity.
Qed.

Lemma tick_moves_snake_witness :
  exists c',
    step Tick (running [ {| x := 7; y := 0 |}; {| x := 7; y := 1 |} ] UP
                 {| x := 3; y := 3 |} 1) [] = Ok (c', []) /\
    snake (st c') = [ {| x := 7; y := 14 |}; {| x := 7; y := 0 |} ].
Proof.
  destruct (tick_moves_snake
              (running [ {| x := 7; y := 0 |}; {| x := 7; y := 1 |} ] UP
                 {| x := 3; y := 3 |} 1) []
              {| x := 7; y := 0 |} [ {| x := 7; y := 1 |} ])
    as [[c' [Hs [Hsn _]]] _].
  - reflexivity.
  - reflexivity.
  - reflexivity.
  - simpl. intros [H | [H | []]]; discriminate H.
  - simpl. discriminate.
  - exists c'. split; assumption.
Defined.

(** * Placing the food *)

Lemma mount_food (tape : list Q) c tape' :
  mount tape = Ok (c, tape') ->
  getRandomFood (snake (st c)) tape = Ok (food (st c), tape').
Proof.
  unfold mount, bind.
  destruct (getRandomFood INITIAL_SNAKE tape) as [[nf t]| |] eqn:Hg;
    try discriminate.
  intros H. injection H as <- <-. exact Hg.
Qed.

Lemma handleRestart_food (c : Component) (tape : list Q) c' tape' :
  handleRestart c tape = Ok (c', tape') ->
  getRandomFood (snake (st c')) tape = Ok (food (st c'), tape').
Proof.
  intros H. apply handleRestart_effect in H.
  destruct H as [nf [Hg ->]]. exact Hg.
Qed.

(** The tick is the only event besides restart that writes [food], and it
    writes what the loop returned for the grown snake. *)
Lemma tick_food (c : Component) (tape : list Q) c' tape' :
  tick c tape = Ok (c', tape') ->
  food (st c') <> food (st c) ->
  getRandomFood (snake (st c')) tape = Ok (food (st c'), tape').
Proof.
  intros H Hne. apply tick_cases in H.
  destruct H as [[_ [-> _]] | [_ Ht]]; [contradiction Hne; reflexivity|].
  destruct Ht as [head tl Hs Hc | head tl nf t' Hs Hc Hf Hg
                 | head tl Hs Hc Hf];
    try (contradiction Hne; reflexivity).
  exact Hg.
Qed.

(** C7: for a snake that leaves a cell of the board free, the loop of
    [getRandomFood] returns the cell of the first pair of draws that is on
    no cell of the snake, having rejected every pair before it, and some
    pair of draws is accepted; so what it returns is never a cell of the
    snake.  The food of the mounted component, of the component after a
    restart and of the component after a tick that replaced the food is
    what the loop returned for the snake that state holds. *)
Theorem food_placed_off_snake (sn : list Cell) (free : Cell) :
  on_board free -> ~ In free sn ->
  (forall tape c rest,
      getRandomFood sn tape = Ok (c, rest) ->
      ~ In c sn /\
      exists rejected rx ry,
        tape = flatten rejected ++ rx :: ry :: rest /\
        all_rejected sn rejected = true /\
        c = drawn rx ry) /\
  (exists rx ry,
      in_unit rx = true /\ in_unit ry = true /\ drawn rx ry = free /\
      forall rejected rest,
        all_rejected sn rejected = true ->
        getRandomFood sn (flatten rejected ++ rx :: ry :: rest)
        = Ok (free, rest)) /\
  (forall tape c tape',
      mount tape = Ok (c, tape') -> ~ In (food (st c)) (snake (st c))) /\
  (forall c tape c' tape',
      handleRestart c tape = Ok (c', tape') ->
      ~ In (food (st c')) (snake (st c'))) /\
  (forall c tape c' tape',
      tick c tape = Ok (c', tape') ->
      food (st c') <> food (st c) ->
      ~ In (food (st c')) (snake (st c'))).
Proof.
  intros [Hx Hy] Hfree. split; [|split; [|split; [|split]]].
  - intros tape c rest. apply getRandomFood_sound.
  - exists (x free # 15)%Q, (y free # 15)%Q.
    destruct (random_coord_onto _ Hx) as [Ux Ex].
    destruct (random_coord_onto _ Hy) as [Uy Ey].
    assert (Hd : drawn (x free # 15) (y free # 15) = free).
    { unfold drawn. rewrite Ex, Ey. destruct free; reflexivity. }
    repeat split; try assumption.
    intros rejected rest Hrej. rewrite <- Hd at 3.
    apply getRandomFood_complete; [exact Hrej|].
    rewrite Hd. apply some_at_not_In. exact Hfree.
  - intros tape c tape' H.
    apply (getRandomFood_sound _ _ _ _ (mount_food _ _ _ H)).
  - intros c tape c' tape' H.
    apply (getRandomFood_sound _ _ _ _ (handleRestart_food _ _ _ _ H)).
  - intros c tape c' tape' H Hne.
    apply (getRandomFood_sound _ _ _ _ (tick_food _ _ _ _ H Hne)).
Qed.

Lemma food_placed_off_snake_witness :
  exists rx ry,
    in_unit rx = true /\ in_unit ry = true /\
    drawn rx ry = {| x := 3; y := 3 |} /\
    forall rejected rest,
      all_rejected INITIAL_SNAKE rejected = true ->
      getRandomFood INITIAL_SNAKE (flatten rejected ++ rx :: ry :: rest)
      = Ok ({| x := 3; y := 3 |}, rest).
Proof.
  apply (food_placed_off_snake INITIAL_SNAKE {| x := 3; y := 3 |}).
  - unfold on_board, BOARD_SIZE; simpl; lia.
  - simpl. intros [H | []]. discriminate H.
Defined.

(** * After the game is over *)

Lemma synced_gameOverRef (c : Component) :
  synced c -> gameOverRef (refs c) = gameOver (st c).
Proof. intros H. rewrite H. reflexivity. Qed.

Lemma synced_syncRefs_id (c : Component) : synced c -> syncRefs c = c.
Proof.
  unfold synced. destruct c as [g r sx sy]. simpl. intros ->. reflexivity.
Qed.

Lemma step_game_over (e : Event) (c : Component) (tape : list Q) :
  synced c -> gameOver (st c) = true -> is_restart e = false ->
  exists c',
    step e c tape = Ok (c', tape) /\ st c' = st c /\ refs c' = refs c.
Proof.
  intros Hsy Hgo He. pose proof (synced_gameOverRef c Hsy) as Hr.
  rewrite Hgo in Hr. unfold step, bind.
  destruct e as [key | cx cy | cx cy | | ]; simpl in *; try discriminate.
  - unfold handleKey. rewrite Hr. exists (syncRefs c).
    rewrite synced_syncRefs_id by exact Hsy. repeat split.
  - eexists. split; [reflexivity|]. split; [reflexivity|].
    simpl. symmetry. exact Hsy.
  - unfold handleTouchEnd. rewrite Hr. exists (syncRefs c).
    rewrite synced_syncRefs_id by exact Hsy. repeat split.
  - unfold tick. rewrite Hgo. simpl. exists (syncRefs c).
    rewrite synced_syncRefs_id by exact Hsy. repeat split.
Qed.

(** C9: from a state whose status is GameOver, any run of ticks, key
    events and touch events that has no restart in it returns and leaves
    the snake, the direction, the food, the score and the status as they
    were; and while the status is NotStarted or GameOver a timer period
    runs no step: the tick leaves the whole component as it was. *)
Theorem game_over_is_terminal
  (c : Component) (es : list Event) (tape : list Q) :
  synced c ->
  status (st c) = GameOver ->
  forallb (fun e => negb (is_restart e)) es = true ->
  (exists c',
      run es c tape = Ok (c', tape) /\
      snake (st c') = snake (st c) /\
      direction (st c') = direction (st c) /\
      food (st c') = food (st c) /\
      score (st c') = score (st c) /\
      status (st c') = GameOver) /\
  (forall g t, status (st g) <> Running -> tick g t = Ok (g, t)).
Proof.
  intros Hsy Hst Hes. split.
  - assert (Hgo : gameOver (st c) = true).
    { unfold status in Hst. destruct (gameOver (st c)); [reflexivity|].
      destruct (isPlaying (st c)); discriminate. }
    assert (H : exists c', run es c tape = Ok (c', tape) /\ st c' = st c).
    { clear Hst. revert c Hsy Hgo.
      induction es as [|e es IH]; intros c Hsy Hgo.
      - exists c. split; reflexivity.
      - simpl in Hes. apply andb_true_iff in Hes. destruct Hes as [He Hes].
        apply negb_true_iff in He.
        destruct (step_game_over e c tape Hsy Hgo He) as [c1 [H1 [Hs1 Hr1]]].
        destruct (IH Hes c1) as [c' [Hrun Hs']].
        + unfold synced in *. rewrite Hr1, Hsy. unfold syncRefs. simpl.
          rewrite Hs1. reflexivity.
        + rewrite Hs1. exact Hgo.
        + exists c'. split; [|congruence].
          simpl. unfold bind. rewrite H1. exact Hrun. }
    destruct H as [c' [Hrun Hs']]. exists c'. rewrite Hs'.
    repeat split; assumption.
  - intros g t Hg. unfold tick. unfold status in Hg.
    destruct (gameOver (st g)); [reflexivity|].
    destruct (isPlaying (st g)); [contradiction Hg; reflexivity|].
    reflexivity.
Qed.

Lemma game_over_is_terminal_witness :
  exists c',
    run [Tick; KeyDown "ArrowLeft"; TouchStart 0 0; TouchEnd 100 0; Tick]
      game_over_state tape_3_3 = Ok (c', tape_3_3) /\
    snake (st c') = snake (st game_over_state) /\
    direction (st c') = direction (st game_over_state) /\
    food (st c') = food (st game_over_state) /\
    score (st c') = score (st game_over_state) /\
    status (st c') = GameOver.
Proof.
  apply (game_over_is_terminal game_over_state
           [Tick; KeyDown "ArrowLeft"; TouchStart 0 0; TouchEnd 100 0; Tick]
           tape_3_3); reflexivity.
Defined.

(** * Input that carries no direction *)

Lemma key_is_app (key : string) (a b : list string) :
  key_is key (a ++ b) = key_is key a || key_is key b.
Proof. apply existsb_app. Qed.

Lemma handleKey_unrecognised (key : string) (c : Component) :
  isDirectionKey key = false ->
  handleKey key c =
  if gameOverRef (refs c) then c
  else if negb (isPlayingRef (refs c)) then update (setIsPlaying true) c
  else c.
Proof.
  unfold isDirectionKey.
  change ["ArrowUp"; "w"; "W"; "ArrowDown"; "s"; "S";
          "ArrowLeft"; "a"; "A"; "ArrowRight"; "d"; "D"]%string
    with (["ArrowUp"; "w"; "W"]%string ++ ["ArrowDown"; "s"; "S"]%string
          ++ ["ArrowLeft"; "a"; "A"]%string
          ++ ["ArrowRight"; "d"; "D"]%string)%list.
  rewrite !key_is_app, !orb_false_iff. intros [H1 [H2 [H3 H4]]].
  unfold handleKey. rewrite H1, H2, H3, H4. reflexivity.
Qed.

Lemma handleTouchEnd_short (cx cy : Z) (c : Component) :
  Z.abs (cx - startX c) <= 20 -> Z.abs (cy - startY c) <= 20 ->
  handleTouchEnd cx cy c =
  if gameOverRef (refs c) then c
  else if negb (isPlayingRef (refs c)) then update (setIsPlaying true) c
  else c.
Proof.
  intros Hx Hy. unfold handleTouchEnd. cbv zeta.
  assert (E1 : (cx - startX c >? 20) = false) by lia.
  assert (E2 : (cx - startX c <? -20) = false) by lia.
  assert (E3 : (cy - startY c >? 20) = false) by lia.
  assert (E4 : (cy - startY c <? -20) = false) by lia.
  rewrite E1, E2, E3, E4. simpl.
  destruct (Z.abs (cx - startX c) >? Z.abs (cy - startY c)); reflexivity.
Qed.

(** C2, as stated, fails: in the mounted component, whose status is
    NotStarted, the key "x" is none of the direction keys, and the state
    after it has the status Running. *)
Lemma unrecognised_key_starts_game :
  ~ (forall c e tape c' tape',
        reachable c -> malformed e c ->
        step e c tape = Ok (c', tape') ->
        status (st c') = status (st c)).
Proof.
  intros H.
  specialize (H mounted (KeyDown "x") [] _ [] reachable_mounted
                eq_refl eq_refl).
  discriminate H.
Qed.

(** The same for a touch that does not move. *)
Example still_touch_starts_game :
  malformed (TouchEnd 0 0) mounted /\
  exists c', step (TouchEnd 0 0) mounted [] = Ok (c', [])
             /\ status (st mounted) = NotStarted
             /\ status (st c') = Running.
Proof.
  split; [simpl; lia|]. eexists. repeat split.
Qed.

(** C2, amended: a key that is none of the direction keys, or the end of a
    touch within 20 units of its start both ways, writes no direction and
    leaves the snake, the direction, the food, the score and the game-over
    flag as they were; the status stays as it was when it is Running or
    GameOver, and becomes Running when it is NotStarted. *)
Theorem malformed_input_only_starts
  (c : Component) (e : Event) (tape : list Q) :
  synced c -> malformed e c ->
  exists c',
    step e c tape = Ok (c', tape) /\
    snake (st c') = snake (st c) /\
    direction (st c') = direction (st c) /\
    food (st c') = food (st c) /\
    score (st c') = score (st c) /\
    gameOver (st c') = gameOver (st c) /\
    status (st c') =
      match status (st c) with
      | NotStarted => Running
      | Running => Running
      | GameOver => GameOver
      end.
Proof.
  intros Hsy Hm.
  assert (Hh : exists h,
    handler e c = ret h /\
    h = if gameOverRef (refs c) then c
        else if negb (isPlayingRef (refs c))
             then update (setIsPlaying true) c else c).
  { destruct e as [key | cx cy | cx cy | | ]; simpl in Hm;
      try contradiction.
    - eexists. split; [reflexivity|].
      apply handleKey_unrecognised. exact Hm.
    - eexists. split; [reflexivity|].
      destruct Hm. apply handleTouchEnd_short; assumption. }
  destruct Hh as [h [Hh ->]]. unfold step, bind. rewrite Hh.
  eexists. split; [reflexivity|].
  clear Hm Hh. unfold synced in Hsy.
  destruct c as [[sn di fo sc go ip] r sx sy]. simpl in Hsy. subst r.
  destruct go, ip; repeat split.
Qed.

Lemma malformed_input_only_starts_witness :
  exists c',
    step (KeyDown "x") mounted [] = Ok (c', []) /\
    snake (st c') = snake (st mounted) /\
    direction (st c') = direction (st mounted) /\
    food (st c') = food (st mounted) /\
    score (st c') = score (st mounted) /\
    gameOver (st c') = gameOver (st mounted) /\
    status (st c') = Running.
Proof.
  apply (malformed_input_only_starts mounted (KeyDown "x") []);
    reflexivity.
Defined.

(** * Restart *)

(** Before the game has started every key press and every touch end
    starts it, whatever else it does. *)
Lemma input_starts_game (c : Component) (e : Event) (tape : list Q) :
  synced c -> status (st c) = NotStarted -> is_input e = true ->
  exists c', step e c tape = Ok (c', tape) /\ status (st c') = Running.
Proof.
  intros Hsy Hst He. unfold synced in Hsy.
  destruct c as [[sn di fo sc go ip] r sx sy]. simpl in Hsy. subst r.
  unfold status in Hst. simpl in Hst.
  destruct go; [discriminate|]. destruct ip; [discriminate|].
  destruct e as [key | cx cy | cx cy | | ]; try discriminate;
    eexists; (split; [reflexivity|]);
    unfold handleKey, handleTouchEnd; simpl; split_ifs; reflexivity.
Qed.

(** While the game has not started the timer runs nothing. *)
Lemma ticks_idle (n : nat) (c : Component) (tape : list Q) :
  synced c -> status (st c) <> Running ->
  run (repeat Tick n) c tape = Ok (c, tape).
Proof.
  intros Hsy Hst. induction n as [|n IH]; [reflexivity|].
  simpl. unfold bind, step, bind. simpl. unfold tick.
  unfold status in Hst.
  destruct (gameOver (st c)); simpl.
  - rewrite synced_syncRefs_id by exact Hsy. exact IH.
  - destruct (isPlaying (st c)); [contradiction Hst; reflexivity|].
    simpl. rewrite synced_syncRefs_id by exact Hsy. exact IH.
Qed.

(** C8, as stated, fails in its account of the clock: after a restart the
    key "x", which carries no direction, sets the status to Running. *)
Lemma clock_resumes_without_direction :
  ~ (forall c tape c' tape' e t c'' t',
        handleRestart c tape = Ok (c', tape') ->
        malformed e (syncRefs c') ->
        step e (syncRefs c') t = Ok (c'', t') ->
        status (st c'') = NotStarted).
Proof.
  intros H.
  specialize (H game_over_state tape_3_3 _ _ (KeyDown "x") [] _ _
                eq_refl eq_refl eq_refl).
  discriminate H.
Qed.

(** After that key the timer moves the snake, still heading up. *)
Example restarted_game_runs_after_any_key :
  exists c' c'',
    handleRestart game_over_state tape_3_3 = Ok (c', []) /\
    run [KeyDown "x"; Tick] (syncRefs c') [] = Ok (c'', []) /\
    snake (st c'') = [ {| x := 7; y := 6 |} ].
Proof. do 2 eexists. repeat split. Qed.

(** C8, amended: the restart action returns as soon as the tape has a pair
    of draws off {7,7}, and leaves the snake [{7,7}], the direction {0,-1},
    the score 0, the status NotStarted and the food on a board cell other
    than {7,7}: the game state the component has when mounted on the same
    draws.  In that state the timer runs nothing, however many periods
    pass, and the next key press or touch end sets the status to Running,
    with or without a direction.  Whenever the action returns, on any
    tape, the state is as described. *)
Theorem restart_gives_initial_state
  (c : Component) (rejected : list (Q * Q)) (rx ry : Q) (rest : list Q) :
  in_unit rx = true -> in_unit ry = true ->
  all_rejected INITIAL_SNAKE rejected = true ->
  drawn rx ry <> {| x := 7; y := 7 |} ->
  (exists c' m,
      handleRestart c (flatten rejected ++ rx :: ry :: rest) = Ok (c', rest) /\
      mount (flatten rejected ++ rx :: ry :: rest) = Ok (m, rest) /\
      st c' = st m /\
      snake (st c') = [ {| x := 7; y := 7 |} ] /\
      direction (st c') = {| x := 0; y := -1 |} /\
      score (st c') = 0 /\
      status (st c') = NotStarted /\
      food (st c') = drawn rx ry /\
      food (st c') <> {| x := 7; y := 7 |} /\
      on_board (food (st c')) /\
      (forall n tape,
          run (repeat Tick n) (syncRefs c') tape = Ok (syncRefs c', tape)) /\
      (forall e tape,
          is_input e = true ->
          exists c'', step e (syncRefs c') tape = Ok (c'', tape) /\
                      status (st c'') = Running)) /\
  (forall tape c' tape',
      valid_tape tape = true ->
      handleRestart c tape = Ok (c', tape') ->
      snake (st c') = [ {| x := 7; y := 7 |} ] /\
      direction (st c') = {| x := 0; y := -1 |} /\
      score (st c') = 0 /\
      status (st c') = NotStarted /\
      food (st c') <> {| x := 7; y := 7 |} /\
      on_board (food (st c'))).
Proof.
  intros Hrx Hry Hrej Hne.
  assert (Hmiss : some_at INITIAL_SNAKE (drawn rx ry) = false).
  { apply some_at_not_In. simpl. intros [H | []]. congruence. }
  pose proof (getRandomFood_complete _ rejected rx ry rest Hrej Hmiss) as Hg.
  split.
  - eexists. eexists. unfold handleRestart, mount, bind. rewrite Hg.
    split; [reflexivity|]. split; [reflexivity|].
    repeat split; simpl; try (apply random_coord_range; assumption).
    + exact Hne.
    + intros n tape. apply ticks_idle; [reflexivity | discriminate].
    + intros e tape He. apply input_starts_game;
        [reflexivity | reflexivity | exact He].
  - intros tape c' tape' Hv H. apply handleRestart_effect in H.
    destruct H as [nf [Hgen ->]]. simpl.
    destruct (getRandomFood_valid _ _ _ _ Hv Hgen) as [Hb _].
    destruct (getRandomFood_sound _ _ _ _ Hgen) as [Hn _].
    repeat split; try apply Hb.
    intros ->. apply Hn. left. reflexivity.
Qed.

Lemma restart_gives_initial_state_witness :
  exists c',
    handleRestart game_over_state
      (flatten [ (1 # 2, 1 # 2)%Q ] ++ (1 # 5)%Q :: (1 # 5)%Q :: [])
    = Ok (c', []) /\
    st c' = st mounted.
Proof.
  destruct (restart_gives_initial_state game_over_state
              [ (1 # 2, 1 # 2)%Q ] (1 # 5)%Q (1 # 5)%Q [])
    as [[c' [m [Hr [Hm [Hst _]]]]] _].
  - reflexivity.
  - reflexivity.
  - reflexivity.
  - discriminate.
  - exists c'. split; [exact Hr|]. rewrite Hst.
    simpl in Hm. injection Hm as <-. reflexivity.
Defined.

(** * The reversal guard *)

(** The guard of each case reads [moveRef.current], which the effect of
    lines 38-43 sets to [direction] after every render: it holds the last
    direction written, consumed by a tick or not. *)
Lemma moveRef_is_last_written (e : Event) (c : Component) tape c' tape' :
  step e c tape = Ok (c', tape') -> moveRef (refs c') = direction (st c').
Proof.
  unfold step, bind.
  destruct (handler e c tape) as [[c1 t1]| |]; try discriminate.
  intros H. injection H as <- <-. reflexivity.
Qed.

(** One input event never writes the opposite of the direction the state
    holds. *)
Lemma single_intent_never_reverses (c : Component) (e : Event) tape c' tape' :
  synced c -> unit_direction (direction (st c)) ->
  is_tick e = false -> is_restart e = false ->
  step e c tape = Ok (c', tape') ->
  direction (st c') <> opposite (direction (st c)).
Proof.
  intros Hsy Hd Ht Hr. unfold step, bind.
  destruct e as [key | cx cy | cx cy | | ]; simpl in *; try discriminate;
    intros H; injection H as <- <-;
    unfold synced in Hsy;
    destruct c as [[sn di fo sc go ip] r sx sy]; simpl in *; subst r;
    unfold handleKey, handleTouchEnd; simpl;
    destruct Hd as [-> | [-> | [-> | ->]]];
    unfold UP, DOWN, LEFT, RIGHT; simpl;
    split_ifs; simpl;
    first [ discriminate
          | match goal with
            | H : _ && false = true |- _ =>
                rewrite andb_false_r in H; discriminate H
            end ].
Qed.

(** Two input events do: a turn to the side, then the turn back. *)
Lemma two_intents_reverse (c : Component) :
  synced c -> gameOver (st c) = false ->
  unit_direction (direction (st c)) ->
  exists k1 k2 c',
    run [KeyDown k1; KeyDown k2] c [] = Ok (c', []) /\
    direction (st c') = opposite (direction (st c)).
Proof.
  intros Hsy Hgo Hd. unfold synced in Hsy.
  destruct c as [[sn di fo sc go ip] r sx sy]; simpl in *; subst r go.
  destruct Hd as [-> | [-> | [-> | ->]]].
  - exists "ArrowLeft"%string, "ArrowDown"%string.
    destruct ip; eexists; split; reflexivity.
  - exists "ArrowLeft"%string, "ArrowUp"%string.
    destruct ip; eexists; split; reflexivity.
  - exists "ArrowUp"%string, "ArrowRight"%string.
    destruct ip; eexists; split; reflexivity.
  - exists "ArrowUp"%string, "ArrowLeft"%string.
    destruct ip; eexists; split; reflexivity.
Qed.

(** C1, on the code: mounted with the food on {7,6}, the game is started
    with ArrowUp and a tick consumes the direction up, the snake growing to
    [{7,6}; {7,7}].  Before the next tick come ArrowLeft and ArrowDown.
    ArrowDown is tested against left, the direction written by ArrowLeft
    and consumed by no tick, and passes: the next tick consumes down, the
    opposite of the direction the tick before it consumed, and the snake
    runs into its second cell. *)
Theorem reversal_through_queued_intent :
  exists c0 c1 c2 c3 c4,
    mount tape_7_6 = Ok (c0, []) /\
    step (KeyDown "ArrowUp") c0 [] = Ok (c1, []) /\
    direction (st c1) = UP /\
    step Tick c1 tape_3_3 = Ok (c2, []) /\
    snake (st c2) = [ {| x := 7; y := 6 |}; {| x := 7; y := 7 |} ] /\
    run [KeyDown "ArrowLeft"; KeyDown "ArrowDown"] c2 [] = Ok (c3, []) /\
    direction (st c3) = opposite UP /\
    step Tick c3 [] = Ok (c4, []) /\
    status (st c4) = GameOver.
Proof.
  do 5 eexists. repeat split.
Qed.

(** * The grid *)

Lemma indices_range (i : Z) : In i indices <-> 0 <= i < 225.
Proof.
  unfold indices. change (Z.to_nat (BOARD_SIZE * BOARD_SIZE)) with 225%nat.
  rewrite in_map_iff. split.
  - intros [n [<- Hn]]. apply in_seq in Hn. lia.
  - intros Hi. exists (Z.to_nat i). split; [lia|]. apply in_seq. lia.
Qed.

Lemma indices_NoDup : NoDup indices.
Proof.
  unfold indices. apply (NoDup_map_inv Z.to_nat). rewrite map_map.
  rewrite (map_ext _ (fun n => n)) by apply Nat2Z.id.
  rewrite map_id. apply seq_NoDup.
Qed.

(** Position to cell and back, and cell to position and back. *)
Lemma indexOf_cellAt (i : Z) : 0 <= i < 225 -> indexOf (cellAt i) = i.
Proof.
  intros Hi. unfold indexOf, cellAt, BOARD_SIZE. simpl.
  rewrite Z.rem_mod_nonneg by lia. Z.div_mod_to_equations. lia.
Qed.

Lemma cellAt_indexOf (c : Cell) :
  on_board c -> cellAt (indexOf c) = c /\ 0 <= indexOf c < 225.
Proof.
  unfold on_board, indexOf, cellAt, BOARD_SIZE. destruct c as [cx cy].
  simpl. intros [Hx Hy]. split; [|lia].
  rewrite Z.rem_mod_nonneg by lia. f_equal; Z.div_mod_to_equations; lia.
Qed.

Lemma cellAt_on_board (i : Z) : 0 <= i < 225 -> on_board (cellAt i).
Proof.
  intros Hi. unfold on_board, cellAt, BOARD_SIZE. simpl.
  rewrite Z.rem_mod_nonneg by lia. Z.div_mod_to_equations. lia.
Qed.

Lemma board_spec (c : Cell) : In c board <-> on_board c.
Proof.
  unfold board. rewrite in_map_iff. split.
  - intros [i [<- Hi]]. apply cellAt_on_board, indices_range, Hi.
  - intros Hc. destruct (cellAt_indexOf c Hc) as [E R].
    exists (indexOf c). split; [exact E | apply indices_range; exact R].
Qed.

Lemma board_NoDup : NoDup board.
Proof.
  apply (NoDup_map_inv indexOf). unfold board. rewrite map_map.
  rewrite (map_ext_in _ (fun i => i)).
  - rewrite map_id. exact indices_NoDup.
  - intros i Hi. apply indexOf_cellAt, indices_range, Hi.
Qed.

Lemma board_length : List.length board = 225%nat.
Proof. reflexivity. Qed.

(** * The shape of the snake *)

Lemma removelast_In {A} (a : A) (l : list A) :
  In a (removelast l) -> In a l.
Proof.
  induction l as [|b l IH]; [intros []|].
  destruct l as [|b' l]; [intros []|].
  change (removelast (b :: b' :: l)) with (b :: removelast (b' :: l)).
  intros [-> | H]; [left; reflexivity | right; apply IH; exact H].
Qed.

Lemma NoDup_removelast {A} (l : list A) : NoDup l -> NoDup (removelast l).
Proof.
  induction 1 as [|a l Ha Hl IH]; [constructor|].
  destruct l as [|b l]; [constructor|].
  change (removelast (a :: b :: l)) with (a :: removelast (b :: l)).
  constructor; [|exact IH].
  intros Hin. apply Ha. apply removelast_In. exact Hin.
Qed.

Lemma Shape_mount (tape : list Q) c tape' :
  mount tape = Ok (c, tape') -> Shape c.
Proof.
  intros H. pose proof (mount_food _ _ _ H) as Hg.
  apply getRandomFood_sound in Hg. destruct Hg as [Hn _].
  revert H Hn. unfold mount, bind.
  destruct (getRandomFood INITIAL_SNAKE tape) as [[nf t]| |];
    try discriminate.
  intros H. injection H as <- <-. simpl. intros Hn.
  constructor; simpl; try discriminate; try assumption.
  repeat constructor. intros [].
Qed.

Lemma Shape_input (c c' : Component) :
  Shape c -> input_effect c c' -> Shape (syncRefs c').
Proof.
  intros [Hne Hnd Hf Hp] [d [p [-> [_ Hp']]]].
  constructor; simpl; try assumption.
  intros Hgo. destruct Hp' as [-> | [-> _]]; [apply Hp; exact Hgo|].
  reflexivity.
Qed.

Lemma Shape_tick (c : Component) (tape : list Q) c' tape' :
  synced c -> isPlaying (st c) = true -> Shape c ->
  tick_effect c tape c' tape' -> Shape (syncRefs c').
Proof.
  intros Hsy Hpl [Hne Hnd Hf Hp] Ht.
  assert (Hfr : foodRef (refs c) = food (st c)) by (rewrite Hsy; reflexivity).
  destruct Ht as [head tl Hsn Hc | head tl newFood rest Hsn Hc Hfd Hgen
                 | head tl Hsn Hc Hfd];
    constructor; simpl; try assumption; try discriminate.
  - intros _. exact Hpl.
  - constructor; [apply some_at_not_In; exact Hc | exact Hnd].
  - apply (getRandomFood_sound _ _ _ _ Hgen).
  - constructor; [|apply NoDup_removelast; exact Hnd].
    intros Hin. apply removelast_In in Hin.
    apply some_at_not_In in Hc. contradiction.
  - intros [E | Hin].
    + rewrite Hfr in Hfd. rewrite <- E in Hfd.
      assert (T : same_cell (newHead head (direction (st c)))
                    (newHead head (direction (st c))) = true)
        by (apply same_cell_eq; reflexivity).
      congruence.
    + apply Hf. apply removelast_In. exact Hin.
Qed.

Lemma Shape_restart (c : Component) (tape : list Q) c' tape' :
  handleRestart c tape = Ok (c', tape') -> Shape (syncRefs c').
Proof.
  intros H. pose proof (handleRestart_food _ _ _ _ H) as Hg.
  apply getRandomFood_sound in Hg. destruct Hg as [Hn _].
  apply handleRestart_effect in H. destruct H as [nf [_ ->]].
  simpl in Hn.
  constructor; simpl; try discriminate; try assumption.
  repeat constructor. intros [].
Qed.

Lemma Shape_step (e : Event) (c : Component) (tape : list Q) c' tape' :
  synced c -> Shape c -> step e c tape = Ok (c', tape') -> Shape c'.
Proof.
  intros Hsy HS. unfold step, bind.
  destruct (handler e c tape) as [[c1 t1]| |] eqn:Hh; try discriminate.
  intros H. injection H as <- <-.
  destruct e as [key | cx cy | cx cy | | ]; simpl in Hh.
  - injection Hh as <- <-. apply (Shape_input c); [exact HS|].
    apply handleKey_effect.
  - injection Hh as <- <-. destruct HS. constructor; simpl; assumption.
  - injection Hh as <- <-. apply (Shape_input c); [exact HS|].
    apply handleTouchEnd_effect.
  - apply tick_cases in Hh. destruct Hh as [[_ [-> ->]] | [Hrun Ht]].
    + rewrite synced_syncRefs_id; assumption.
    + apply (Shape_tick c tape c1 t1); try assumption.
      unfold status in Hrun. destruct (gameOver (st c)); [discriminate|].
      destruct (isPlaying (st c)); [reflexivity | discriminate].
  - destruct (gameOver (st c)).
    + eapply Shape_restart; eassumption.
    + injection Hh as <- <-. rewrite synced_syncRefs_id; assumption.
Qed.

Lemma reachable_Shape (c : Component) : reachable c -> Shape c.
Proof.
  induction 1 as [tape c tape' Hv Hm | c e tape c' tape' Hr IH Hv Hs].
  - eapply Shape_mount; eassumption.
  - eapply Shape_step; [apply reachable_Inv; exact Hr | exact IH | exact Hs].
Qed.

Lemma reachable_grown : reachable grown.
Proof.
  assert (H0 : exists c0, mount tape_7_6 = Ok (c0, []) /\
                          run [KeyDown "ArrowUp"; Tick] c0 tape_3_3
                          = Ok (grown, [])).
  { eexists. split; reflexivity. }
  destruct H0 as [c0 [Hm Hr]].
  assert (R0 : reachable c0) by (apply (reach_mount tape_7_6 c0 []);
                                 [reflexivity | exact Hm]).
  simpl in Hr. unfold bind in Hr.
  destruct (step (KeyDown "ArrowUp") c0 tape_3_3) as [[c1 t1]| |] eqn:H1;
    try discriminate.
  assert (Ht1 : t1 = tape_3_3).
  { unfold step, bind in H1. simpl in H1. injection H1 as _ <-. reflexivity. }
  subst t1.
  destruct (step Tick c1 tape_3_3) as [[c2 t2]| |] eqn:H2; try discriminate.
  injection Hr as <- _.
  apply (reach_step c1 Tick tape_3_3 c2 t2); [|reflexivity | exact H2].
  apply (reach_step c0 (KeyDown "ArrowUp") tape_3_3 c1 tape_3_3);
    [exact R0 | reflexivity | exact H1].
Qed.

(** * Invariants of the game *)

(** X1: in every reachable state the snake has at least one cell and no
    cell twice. *)
Theorem snake_never_overlaps (c : Component) :
  reachable c ->
  snake (st c) <> [] /\ NoDup (snake (st c)).
Proof.
  intros Hr. pose proof (reachable_Shape c Hr) as HS.
  split; apply HS.
Qed.

Lemma snake_never_overlaps_witness :
  snake (st grown) <> [] /\ NoDup (snake (st grown)).
Proof.
  apply (snake_never_overlaps grown). exact reachable_grown.
Defined.

(** X2: in every reachable state the food is a cell of the board that is
    not on the snake: at every moment, not only when it is placed. *)
Theorem food_never_on_snake (c : Component) :
  reachable c ->
  on_board (food (st c)) /\ ~ In (food (st c)) (snake (st c)).
Proof.
  intros Hr. split.
  - apply (inv_food c (reachable_Inv c Hr)).
  - apply (shape_food c (reachable_Shape c Hr)).
Qed.

Lemma food_never_on_snake_witness :
  on_board (food (st grown)) /\ ~ In (food (st grown)) (snake (st grown)).
Proof.
  apply (food_never_on_snake grown). exact reachable_grown.
Defined.

Lemma NoDup_on_board_length (l : list Cell) :
  NoDup l -> Forall on_board l -> (List.length l <= 225)%nat.
Proof.
  intros Hnd Hb. rewrite <- board_length.
  apply NoDup_incl_length; [exact Hnd|].
  intros a Ha. apply board_spec. rewrite Forall_forall in Hb.
  apply Hb. exact Ha.
Qed.

(** X3: in every reachable state the score is the number of cells of the
    snake less one, so it is between 0 and 224, and the snake has at most
    the 225 cells of the board. *)
Theorem score_counts_growth (c : Component) :
  reachable c ->
  score (st c) = Z.of_nat (List.length (snake (st c))) - 1 /\
  0 <= score (st c) <= 224 /\
  (1 <= List.length (snake (st c)) <= 225)%nat.
Proof.
  intros Hr. pose proof (reachable_Inv c Hr) as HI.
  pose proof (reachable_Shape c Hr) as HS.
  pose proof (inv_length c HI) as Hl.
  pose proof (NoDup_on_board_length _ (shape_nodup c HS) (inv_snake c HI))
    as Hle.
  pose proof (shape_nonempty c HS) as Hne.
  destruct (snake (st c)) as [|h tl]; [contradiction Hne; reflexivity|].
  simpl List.length in *. lia.
Qed.

Lemma score_counts_growth_witness :
  score (st grown) = Z.of_nat (List.length (snake (st grown))) - 1 /\
  0 <= score (st grown) <= 224 /\
  (1 <= List.length (snake (st grown)) <= 225)%nat.
Proof.
  apply (score_counts_growth grown). exact reachable_grown.
Defined.

(** X4: in every reachable state the refs hold the state they mirror, the
    direction is one of the four unit vectors, and a game that is over has
    been started: [gameOver] without [isPlaying] does not occur. *)
Theorem flags_consistent (c : Component) :
  reachable c ->
  refs c = mkRefs (direction (st c)) (gameOver (st c)) (food (st c))
             (isPlaying (st c)) /\
  unit_direction (direction (st c)) /\
  (gameOver (st c) = true -> isPlaying (st c) = true).
Proof.
  intros Hr. pose proof (reachable_Inv c Hr) as HI.
  split; [apply (inv_synced c HI)|].
  split; [apply (inv_direction c HI)|].
  apply (shape_playing c (reachable_Shape c Hr)).
Qed.

Lemma reachable_neck_collision : reachable neck_collision.
Proof.
  assert (R1 : reachable (syncRefs (update (setDirection LEFT) grown))).
  { apply (reach_step grown (KeyDown "ArrowLeft") [] _ []);
      [exact reachable_grown | reflexivity | reflexivity]. }
  assert (R2 : reachable (syncRefs (update (setDirection DOWN) grown))).
  { apply (reach_step _ (KeyDown "ArrowDown") [] _ [] R1); reflexivity. }
  apply (reach_step _ Tick [] _ [] R2); reflexivity.
Qed.

Lemma flags_consistent_witness :
  refs neck_collision
  = mkRefs (direction (st neck_collision)) (gameOver (st neck_collision))
      (food (st neck_collision)) (isPlaying (st neck_collision)) /\
  unit_direction (direction (st neck_collision)) /\
  (gameOver (st neck_collision) = true ->
   isPlaying (st neck_collision) = true).
Proof.
  exact (flags_consistent neck_collision reachable_neck_collision).
Defined.

(** * What the events can and cannot do *)

Lemma getRandomFood_outcome (sn : list Cell) (tape : list Q) :
  getRandomFood sn tape <> TypeError.
Proof.
  induction tape as [|r|rx ry tl IH] using tape_pairs_ind;
    try discriminate.
  simpl. destruct (some_at sn _); [exact IH | discriminate].
Qed.

(** X5: from a reachable state no event throws: the head the tick reads is
    always there.  An event returns a state on every tape, the empty one
    included, unless it has to place food, in a tick that eats or in a
    restart, and the tape ends before a draw is accepted. *)
Theorem events_never_throw (c : Component) (e : Event) (tape : list Q) :
  reachable c ->
  (exists c' tape', step e c tape = Ok (c', tape')) \/
  (step e c tape = OutOfDraws /\
   ((e = Tick /\ eats c = true) \/
    (e = Restart /\ gameOver (st c) = true))).
Proof.
  intros Hr. pose proof (shape_nonempty c (reachable_Shape c Hr)) as Hne.
  unfold step, bind.
  destruct e as [key | cx cy | cx cy | | ]; simpl;
    try (left; eexists; eexists; reflexivity).
  - unfold eats, tick.
    destruct (gameOver (st c) || negb (isPlaying (st c)));
      [left; eexists; eexists; reflexivity|].
    unfold intervalCallback.
    destruct (snake (st c)) as [|head tl] eqn:Hs;
      [contradiction Hne; reflexivity|].
    destruct (some_at (head :: tl) (newHead head (direction (st c))));
      [left; eexists; eexists; reflexivity|].
    destruct (same_cell (newHead head (direction (st c))) (foodRef (refs c)));
      [|left; eexists; eexists; reflexivity].
    unfold bind.
    pose proof (getRandomFood_outcome
                  (newHead head (direction (st c)) :: head :: tl) tape) as Hg.
    destruct (getRandomFood _ tape) as [[nf t]| |].
    + left; eexists; eexists; reflexivity.
    + contradiction Hg; reflexivity.
    + right. split; [reflexivity|]. left. split; reflexivity.
  - destruct (gameOver (st c)); [|left; eexists; eexists; reflexivity].
    unfold handleRestart, bind.
    pose proof (getRandomFood_outcome INITIAL_SNAKE tape) as Hg.
    destruct (getRandomFood INITIAL_SNAKE tape) as [[nf t]| |].
    + left; eexists; eexists; reflexivity.
    + contradiction Hg; reflexivity.
    + right. split; [reflexivity|]. right. split; reflexivity.
Qed.

Lemma events_never_throw_witness :
  (exists c' tape', step Tick grown [] = Ok (c', tape')) \/
  (step Tick grown [] = OutOfDraws /\
   ((Tick = Tick /\ eats grown = true) \/
    (Tick = Restart /\ gameOver (st grown) = true))).
Proof.
  exact (events_never_throw grown Tick [] reachable_grown).
Defined.

(** X6: the game goes from not over to over in one way only: a tick of a
    running game whose wrapped new head is on a cell of the snake.  No key,
    no touch, no restart and no edge of the board ends it. *)
Theorem game_ends_only_by_collision
  (c : Component) (e : Event) (tape : list Q) c' tape' :
  step e c tape = Ok (c', tape') ->
  gameOver (st c) = false ->
  gameOver (st c') = true ->
  e = Tick /\ status (st c) = Running /\
  exists head tl,
    snake (st c) = head :: tl /\
    In (newHead head (direction (st c))) (snake (st c)).
Proof.
  unfold step, bind.
  destruct (handler e c tape) as [[c1 t1]| |] eqn:Hh; try discriminate.
  intros H Hgo Hgo'. injection H as <- <-. simpl in Hgo'.
  destruct e as [key | cx cy | cx cy | | ]; simpl in Hh.
  - injection Hh as <- <-.
    destruct (handleKey_effect key c) as [d [p [E _]]].
    rewrite E in Hgo'. simpl in Hgo'. congruence.
  - injection Hh as <- <-. simpl in Hgo'. congruence.
  - injection Hh as <- <-.
    destruct (handleTouchEnd_effect cx cy c) as [d [p [E _]]].
    rewrite E in Hgo'. simpl in Hgo'. congruence.
  - apply tick_cases in Hh. destruct Hh as [[_ [-> _]] | [Hrun Ht]];
      [congruence|].
    split; [reflexivity|]. split; [exact Hrun|].
    destruct Ht as [head tl Hs Hc | head tl nf t' Hs Hc Hf Hg
                   | head tl Hs Hc Hf]; simpl in Hgo'; try congruence.
    exists head, tl. split; [exact Hs | apply some_at_In; exact Hc].
  - rewrite Hgo in Hh. injection Hh as <- <-. congruence.
Qed.

Lemma game_ends_only_by_collision_witness :
  Tick = Tick /\
  status (st (syncRefs (update (setDirection DOWN) grown))) = Running /\
  exists head tl,
    snake (st (syncRefs (update (setDirection DOWN) grown))) = head :: tl /\
    In (newHead head
          (direction (st (syncRefs (update (setDirection DOWN) grown)))))
       (snake (st (syncRefs (update (setDirection DOWN) grown)))).
Proof.
  apply (game_ends_only_by_collision
           (syncRefs (update (setDirection DOWN) grown)) Tick []
           neck_collision []); reflexivity.
Defined.

(** X7: a key press, a touch start and a touch end never advance the
    game: whatever the state, they leave the snake, the food, the score
    and the game-over flag as they were, and [isPlaying], once true, stays
    true.  Only a touch start writes the start coordinates. *)
Theorem input_never_advances
  (c : Component) (e : Event) (tape : list Q) c' tape' :
  is_tick e = false -> is_restart e = false ->
  step e c tape = Ok (c', tape') ->
  snake (st c') = snake (st c) /\
  food (st c') = food (st c) /\
  score (st c') = score (st c) /\
  gameOver (st c') = gameOver (st c) /\
  (isPlaying (st c) = true -> isPlaying (st c') = true) /\
  tape' = tape /\
  (is_input e = true -> startX c' = startX c /\ startY c' = startY c).
Proof.
  intros Ht Hr. unfold step, bind.
  destruct (handler e c tape) as [[c1 t1]| |] eqn:Hh; try discriminate.
  intros H. injection H as <- <-.
  destruct e as [key | cx cy | cx cy | | ]; simpl in *; try discriminate;
    injection Hh as <- <-.
  - destruct (handleKey_effect key c) as [d [p [E [_ Hp]]]]. rewrite E.
    simpl. repeat (split; [reflexivity|]).
    split; [|split; [reflexivity | intros _; split; reflexivity]].
    intros Hpl. destruct Hp as [-> | [-> _]]; [exact Hpl | reflexivity].
  - repeat (split; [reflexivity|]).
    split; [intros Hpl; exact Hpl|]. split; [reflexivity | discriminate].
  - destruct (handleTouchEnd_effect cx cy c) as [d [p [E [_ Hp]]]].
    rewrite E. simpl. repeat (split; [reflexivity|]).
    split; [|split; [reflexivity | intros _; split; reflexivity]].
    intros Hpl. destruct Hp as [-> | [-> _]]; [exact Hpl | reflexivity].
Qed.

Lemma input_never_advances_witness :
  snake (st (syncRefs (update (setDirection LEFT) grown)))
  = snake (st grown) /\
  score (st (syncRefs (update (setDirection LEFT) grown)))
  = score (st grown).
Proof.
  destruct (input_never_advances grown (KeyDown "a") []
              (syncRefs (update (setDirection LEFT) grown)) [])
    as [Hs [_ [Hsc _]]]; try reflexivity.
  split; assumption.
Defined.

(** * Keys and swipes *)

Lemma keyDirection_cases (key : string) (d : Cell) :
  keyDirection key = Some d ->
  (d = UP /\ key_is key ["ArrowUp"; "w"; "W"]%string = true) \/
  (d = DOWN /\ key_is key ["ArrowUp"; "w"; "W"]%string = false
   /\ key_is key ["ArrowDown"; "s"; "S"]%string = true) \/
  (d = LEFT /\ key_is key ["ArrowUp"; "w"; "W"]%string = false
   /\ key_is key ["ArrowDown"; "s"; "S"]%string = false
   /\ key_is key ["ArrowLeft"; "a"; "A"]%string = true) \/
  (d = RIGHT /\ key_is key ["ArrowUp"; "w"; "W"]%string = false
   /\ key_is key ["ArrowDown"; "s"; "S"]%string = false
   /\ key_is key ["ArrowLeft"; "a"; "A"]%string = false
   /\ key_is key ["ArrowRight"; "d"; "D"]%string = true).
Proof.
  unfold keyDirection.
  destruct (key_is key ["ArrowUp"; "w"; "W"]%string).
  { intros H. injection H as <-. left. split; reflexivity. }
  destruct (key_is key ["ArrowDown"; "s"; "S"]%string).
  { intros H. injection H as <-. right. left. repeat split. }
  destruct (key_is key ["ArrowLeft"; "a"; "A"]%string).
  { intros H. injection H as <-. right. right. left. repeat split. }
  destruct (key_is key ["ArrowRight"; "d"; "D"]%string); [|discriminate].
  intros H. injection H as <-. right. right. right. repeat split.
Qed.

(** X8: while the game is not over, an arrow key or its letter in either
    case turns the snake to the direction it names, unless that is the
    opposite of the direction the state holds, in which case the direction
    stays; a turn to the side and a press of the current direction are
    always taken.  Either way the game is started. *)
Theorem key_turns_unless_opposite (c : Component) (key : string) (d : Cell) :
  synced c ->
  gameOver (st c) = false ->
  unit_direction (direction (st c)) ->
  keyDirection key = Some d ->
  (direction (st c) = opposite d ->
   direction (st (handleKey key c)) = direction (st c)) /\
  (direction (st c) <> opposite d ->
   direction (st (handleKey key c)) = d) /\
  isPlaying (st (handleKey key c)) = true.
Proof.
  intros Hsy Hgo Hd Hk. unfold synced in Hsy.
  destruct c as [[sn di fo sc go ip] r sx sy]. simpl in *. subst r go.
  apply keyDirection_cases in Hk. unfold handleKey.
  destruct Hk as [[-> H1] | [[-> [H1 H2]] | [[-> [H1 [H2 H3]]]
                 | [-> [H1 [H2 [H3 H4]]]]]]];
    rewrite ?H1, ?H2, ?H3, ?H4;
    destruct Hd as [-> | [-> | [-> | ->]]];
    unfold UP, DOWN, LEFT, RIGHT, opposite; simpl;
    destruct ip; simpl; repeat split; try intros H;
    try reflexivity; try discriminate H; contradiction H; reflexivity.
Qed.

Lemma key_turns_unless_opposite_witness :
  (direction (st grown) = opposite LEFT ->
   direction (st (handleKey "A" grown)) = direction (st grown)) /\
  (direction (st grown) <> opposite LEFT ->
   direction (st (handleKey "A" grown)) = LEFT) /\
  isPlaying (st (handleKey "A" grown)) = true.
Proof.
  apply (key_turns_unless_opposite grown "A" LEFT).
  - reflexivity.
  - reflexivity.
  - left. reflexivity.
  - reflexivity.
Defined.

(** X9: the end of a touch acts as an arrow key whenever the swipe is
    longer than 20 units along its axis: the horizontal axis, to the right
    or left, when the horizontal delta is the larger in absolute value; the
    vertical axis, down or up, otherwise, a diagonal of equal deltas
    counting as vertical. *)
Theorem swipe_acts_as_arrow_key (c : Component) (cx cy : Z) :
  let dx := cx - startX c in
  let dy := cy - startY c in
  20 < Z.abs (if Z.abs dx >? Z.abs dy then dx else dy) ->
  handleTouchEnd cx cy c =
  handleKey (if Z.abs dx >? Z.abs dy
             then if dx >? 0 then "ArrowRight" else "ArrowLeft"
             else if dy >? 0 then "ArrowDown" else "ArrowUp") c.
Proof.
  intros dx dy. unfold handleTouchEnd. cbv zeta. fold dx. fold dy.
  destruct (Z.abs dx >? Z.abs dy) eqn:Hax; intros Hlen.
  - destruct (dx >? 0) eqn:Hs; unfold handleKey; simpl key_is; cbv iota.
    + assert (E2 : (dx >? 20) = true) by lia.
      assert (E3 : (dx <? -20) = false) by lia.
      rewrite E2, E3. simpl.
      destruct (gameOverRef (refs c)), (x (moveRef (refs c)) =? -1);
        reflexivity.
    + assert (E2 : (dx >? 20) = false) by lia.
      assert (E3 : (dx <? -20) = true) by lia.
      rewrite E2, E3. simpl.
      destruct (gameOverRef (refs c)), (x (moveRef (refs c)) =? 1);
        reflexivity.
  - destruct (dy >? 0) eqn:Hs; unfold handleKey; simpl key_is; cbv iota.
    + assert (E2 : (dy >? 20) = true) by lia.
      assert (E3 : (dy <? -20) = false) by lia.
      rewrite E2, E3. simpl.
      destruct (gameOverRef (refs c)), (y (moveRef (refs c)) =? -1);
        reflexivity.
    + assert (E2 : (dy >? 20) = false) by lia.
      assert (E3 : (dy <? -20) = true) by lia.
      rewrite E2, E3. simpl.
      destruct (gameOverRef (refs c)), (y (moveRef (refs c)) =? 1);
        reflexivity.
Qed.

Lemma swipe_acts_as_arrow_key_witness :
  handleTouchEnd 30 30 grown = handleKey "ArrowDown" grown /\
  handleTouchEnd (-50) 10 grown = handleKey "ArrowLeft" grown.
Proof.
  split.
  - apply (swipe_acts_as_arrow_key grown 30 30). simpl. lia.
  - apply (swipe_acts_as_arrow_key grown (-50) 10). simpl. lia.
Defined.

(** * A full board *)

(** With no free cell every pair of draws is rejected. *)
Lemma getRandomFood_no_free_cell (sn : list Cell) (tape : list Q) :
  (forall c, on_board c -> In c sn) ->
  valid_tape tape = true ->
  getRandomFood sn tape = OutOfDraws.
Proof.
  intros Hfull.
  induction tape as [|r|rx ry rest IH] using tape_pairs_ind;
    try reflexivity.
  intros Hv. simpl in Hv.
  apply andb_true_iff in Hv. destruct Hv as [Hx Hv].
  apply andb_true_iff in Hv. destruct Hv as [Hy Hv].
  simpl. fold (drawn rx ry).
  assert (Hin : some_at sn (drawn rx ry) = true).
  { apply some_at_In. apply Hfull. apply drawn_on_board; assumption. }
  rewrite Hin. apply IH. exact Hv.
Qed.

(** X10: when the snake is on every cell of the board, [getRandomFood]
    accepts no draw: on every tape of [Math.random()] results, however
    long, the loop is still running when the tape ends. *)
Theorem full_board_never_places (sn : list Cell) (tape : list Q) :
  (forall c, on_board c -> In c sn) ->
  valid_tape tape = true ->
  getRandomFood sn tape = OutOfDraws.
Proof.
  intros Hfull Hv. apply getRandomFood_no_free_cell; assumption.
Qed.

Lemma full_board_never_places_witness :
  getRandomFood full_board_snake
    [1 # 5; 1 # 5; 7 # 15; 2 # 5; 0; 14 # 15]%Q = OutOfDraws.
Proof.
  apply (full_board_never_places full_board_snake).
  - intros c Hc. apply board_spec. exact Hc.
  - reflexivity.
Defined.

(** X11: a tick that eats the food on the last free cell of the board
    never returns: the grown snake leaves no cell for the new food, and on
    every tape of [Math.random()] results the tick is still drawing when
    the tape ends. *)
Theorem eating_last_cell_hangs
  (c : Component) (tape : list Q) (head : Cell) (tl : list Cell) :
  status (st c) = Running ->
  snake (st c) = head :: tl ->
  ~ In (newHead head (direction (st c))) (snake (st c)) ->
  newHead head (direction (st c)) = foodRef (refs c) ->
  (forall b, on_board b ->
             In b (newHead head (direction (st c)) :: snake (st c))) ->
  valid_tape tape = true ->
  step Tick c tape = OutOfDraws.
Proof.
  intros Hrun Hsn Hnot Hfood Hfull Hv.
  unfold step, bind, handler, tick. unfold status in Hrun.
  destruct (gameOver (st c)); [discriminate|].
  destruct (isPlaying (st c)); [|discriminate]. simpl.
  unfold intervalCallback. apply some_at_not_In in Hnot.
  rewrite Hsn in *. rewrite Hnot.
  assert (Hf : same_cell (newHead head (direction (st c))) (foodRef (refs c))
               = true) by (apply same_cell_eq; exact Hfood).
  rewrite Hf. unfold bind.
  rewrite (getRandomFood_no_free_cell _ tape Hfull Hv). reflexivity.
Qed.

Lemma eating_last_cell_hangs_witness :
  step Tick last_free_cell [1 # 5; 1 # 5; 7 # 15; 2 # 5]%Q = OutOfDraws.
Proof.
  apply (eating_last_cell_hangs last_free_cell _
           {| x := 1; y := 0 |} (tl (tl board))).
  - reflexivity.
  - reflexivity.
  - apply some_at_not_In. vm_compute. reflexivity.
  - reflexivity.
  - intros b Hb. apply board_spec in Hb. exact Hb.
  - reflexivity.
Defined.

(** * What the grid shows *)

Lemma mapM_Ok {A B} (f : A -> Result B) (g : A -> B) (l : list A) :
  (forall a, In a l -> f a = Ok (g a)) -> mapM f l = Ok (map g l).
Proof.
  induction l as [|a l IH]; intros H; [reflexivity|].
  simpl. rewrite (H a) by (left; reflexivity).
  rewrite IH by (intros b Hb; apply H; right; exact Hb). reflexivity.
Qed.

Lemma count_map {A B} (f : B -> bool) (g : A -> B) (l : list A) :
  count f (map g l) = count (fun a => f (g a)) l.
Proof.
  unfold count. induction l as [|a l IH]; [reflexivity|].
  simpl. destruct (f (g a)); simpl; rewrite IH; reflexivity.
Qed.

Lemma count_none {A} (f : A -> bool) (l : list A) :
  (forall a, In a l -> f a = false) -> count f l = 0%nat.
Proof.
  unfold count. induction l as [|a l IH]; intros H; [reflexivity|].
  simpl. rewrite (H a) by (left; reflexivity).
  apply IH. intros b Hb. apply H. right. exact Hb.
Qed.

(** A cell of a list without repetition is found in it once. *)
Lemma count_same_cell (a : Cell) (l : list Cell) :
  NoDup l -> In a l -> count (same_cell a) l = 1%nat.
Proof.
  induction 1 as [|b l Hb Hl IH]; intros Hin; [destruct Hin|].
  unfold count in *. simpl.
  destruct (same_cell a b) eqn:E.
  - apply same_cell_eq in E. subst b. simpl. f_equal.
    apply (count_none (same_cell a) l). intros c Hc.
    destruct (same_cell a c) eqn:E'; [|reflexivity].
    apply same_cell_eq in E'. subst c. contradiction.
  - destruct Hin as [-> | Hin]; [|apply IH; exact Hin].
    assert (T : same_cell a a = true) by (apply same_cell_eq; reflexivity).
    congruence.
Qed.

Lemma count_or {A} (f g : A -> bool) (l : list A) :
  (forall a, In a l -> f a = true -> g a = false) ->
  count (fun a => f a || g a) l = (count f l + count g l)%nat.
Proof.
  unfold count. induction l as [|a l IH]; intros H; [reflexivity|].
  simpl. pose proof (H a (or_introl eq_refl)) as Ha.
  assert (IH' := IH (fun b Hb => H b (or_intror Hb))).
  destruct (f a); simpl.
  - rewrite Ha by reflexivity. simpl. rewrite IH'. reflexivity.
  - destruct (g a); simpl; rewrite IH'; lia.
Qed.

Lemma same_cell_sym (a b : Cell) : same_cell a b = same_cell b a.
Proof.
  unfold same_cell. rewrite (Z.eqb_sym (x a)), (Z.eqb_sym (y a)).
  reflexivity.
Qed.

(** As many cells of the board are on the snake as the snake has cells. *)
Lemma count_snake (sn : list Cell) :
  NoDup sn -> Forall on_board sn -> count (some_at sn) board = List.length sn.
Proof.
  induction 1 as [|a sn Ha Hsn IH]; intros Hb.
  - apply count_none. intros c _. reflexivity.
  - inversion Hb as [|? ? Hba Hbs]; subst.
    change (count (fun c => same_cell a c || some_at sn c) board
            = S (List.length sn)).
    rewrite count_or.
    + rewrite count_same_cell by (exact board_NoDup || apply board_spec;
                                   exact Hba).
      rewrite IH by exact Hbs. reflexivity.
    + intros c _ E. apply same_cell_eq in E. subst c.
      apply some_at_not_In. exact Ha.
Qed.

(** X12: in a reachable state the render finds, at the grid position of a
    board cell, the snake flag exactly for the cells of the snake, the head
    flag exactly for its first cell and the food flag exactly for the food
    cell.  The position takes at most one of the three backgrounds, and
    shows the apple exactly on the food cell and the dot exactly on the
    head: the food is never hidden under the snake. *)
Theorem gridCell_shows_state (c : Component) (b : Cell) :
  reachable c -> on_board b ->
  exists v,
    gridCell (st c) (indexOf b) = Ok v /\
    (isSnake v = true <-> In b (snake (st c))) /\
    (isHead v = true <-> hd_error (snake (st c)) = Some b) /\
    (isFood v = true <-> b = food (st c)) /\
    (List.length (backgrounds v) <= 1)%nat /\
    (glyph v = Apple <-> b = food (st c)) /\
    (glyph v = Dot <-> hd_error (snake (st c)) = Some b).
Proof.
  intros Hr Hb. pose proof (reachable_Shape c Hr) as HS.
  pose proof (shape_nonempty c HS) as Hne.
  pose proof (shape_food c HS) as Hfood.
  destruct (cellAt_indexOf b Hb) as [Ecell _].
  unfold gridCell. rewrite Ecell.
  destruct (snake (st c)) as [|head tl] eqn:Hs;
    [contradiction Hne; reflexivity|].
  eexists. split; [reflexivity|]. unfold backgrounds, glyph. simpl.
  assert (Hh : same_cell head b = true <-> Some head = Some b).
  { rewrite same_cell_eq. split; [intros ->; reflexivity|].
    intros H; injection H as ->; reflexivity. }
  assert (Hf : same_cell (food (st c)) b = true <-> b = food (st c)).
  { rewrite same_cell_eq. split; intros ->; reflexivity. }
  assert (Hsn : same_cell head b || some_at tl b = true <-> head = b \/ In b tl).
  { rewrite orb_true_iff, same_cell_eq, some_at_In. reflexivity. }
  assert (Hex : same_cell (food (st c)) b = true ->
                same_cell head b || some_at tl b = false).
  { intros E. apply not_true_is_false. intros E'.
    apply Hf in E. subst b. apply Hsn in E'. contradiction. }
  split; [exact Hsn|]. split; [exact Hh|]. split; [exact Hf|].
  destruct (same_cell head b) eqn:E1;
    destruct (same_cell (food (st c)) b) eqn:E2; simpl in *.
  - specialize (Hex eq_refl). discriminate.
  - split; [lia|]. split.
    + split; [discriminate|]. intros H. apply Hf in H. discriminate.
    + split; [intros _; apply Hh; reflexivity | reflexivity].
  - rewrite (Hex eq_refl). simpl. split; [lia|]. split.
    + split; [intros _; apply Hf; reflexivity | reflexivity].
    + split; [discriminate|]. intros H. apply Hh in H. discriminate.
  - split; [destruct (some_at tl b); simpl; lia|]. split.
    + split; [discriminate|]. intros H. apply Hf in H. discriminate.
    + split; [discriminate|]. intros H. apply Hh in H. discriminate.
Qed.

Lemma gridCell_shows_state_witness :
  exists v,
    gridCell (st grown) (indexOf {| x := 3; y := 3 |}) = Ok v /\
    isFood v = true /\ isSnake v = false /\ glyph v = Apple.
Proof.
  destruct (gridCell_shows_state grown {| x := 3; y := 3 |})
    as [v [Hg [Hsn [_ [Hf [_ [Hgl _]]]]]]].
  - exact reachable_grown.
  - unfold on_board, BOARD_SIZE; simpl; lia.
  - exists v. split; [exact Hg|]. split; [apply Hf; reflexivity|].
    split; [|apply Hgl; reflexivity].
    destruct (isSnake v) eqn:E; [|reflexivity].
    exfalso. destruct (proj1 Hsn eq_refl) as [E' | [E' | []]];
      discriminate E'.
Defined.

(** X13: in a reachable state the render returns a grid of 225 positions,
    of which exactly one is the head, exactly one holds the food, and as
    many are flagged as snake as the snake has cells, that is score + 1. *)
Theorem grid_counts (c : Component) :
  reachable c ->
  exists views,
    grid (st c) = Ok views /\
    List.length views = 225%nat /\
    count isHead views = 1%nat /\
    count isFood views = 1%nat /\
    count isSnake views = List.length (snake (st c)) /\
    Z.of_nat (count isSnake views) = score (st c) + 1.
Proof.
  intros Hr. pose proof (reachable_Shape c Hr) as HS.
  pose proof (reachable_Inv c Hr) as HI.
  pose proof (shape_nonempty c HS) as Hne.
  pose proof (inv_snake c HI) as Hbd.
  pose proof (inv_length c HI) as Hlen.
  pose proof (shape_nodup c HS) as Hnd.
  destruct (snake (st c)) as [|head tl] eqn:Hs;
    [contradiction Hne; reflexivity|].
  pose (view := fun i =>
    {| isSnake := some_at (head :: tl) (cellAt i);
       isHead := same_cell head (cellAt i);
       isFood := same_cell (food (st c)) (cellAt i) |}).
  exists (map view indices). split.
  - unfold grid. apply mapM_Ok. intros i _. unfold gridCell.
    rewrite Hs. reflexivity.
  - split; [reflexivity|].
    rewrite !count_map.
    change (count (fun i => isHead (view i)) indices)
      with (count (fun i => same_cell head (cellAt i)) indices).
    change (count (fun i => isFood (view i)) indices)
      with (count (fun i => same_cell (food (st c)) (cellAt i)) indices).
    change (count (fun i => isSnake (view i)) indices)
      with (count (fun i => some_at (head :: tl) (cellAt i)) indices).
    rewrite <- !(count_map _ cellAt). fold board.
    rewrite (count_snake _ Hnd Hbd).
    repeat split; try exact Hlen.
    + apply count_same_cell; [exact board_NoDup|]. apply board_spec.
      inversion Hbd; assumption.
    + apply count_same_cell; [exact board_NoDup|]. apply board_spec.
      apply (inv_food c HI).
Qed.

Lemma grid_counts_witness :
  exists views,
    grid (st grown) = Ok views /\
    List.length views = 225%nat /\
    count isHead views = 1%nat /\
    count isFood views = 1%nat /\
    count isSnake views = List.length (snake (st grown)) /\
    Z.of_nat (count isSnake views) = score (st grown) + 1.
Proof.
  exact (grid_counts grown reachable_grown).
Defined.

(** X14: the positions the render walks, turned into cells by [i % 15]
    and [Math.floor(i / 15)], are the cells of the board, each of them
    once: 225 in all, position [y * 15 + x] being the cell {x,y}. *)
Theorem grid_positions_are_board_cells :
  (forall b, In b (map cellAt indices) <-> on_board b) /\
  NoDup (map cellAt indices) /\
  List.length (map cellAt indices) = 225%nat /\
  (forall b, on_board b -> In (indexOf b) indices /\ cellAt (indexOf b) = b) /\
  (forall i, In i indices -> indexOf (cellAt i) = i).
Proof.
  split; [exact board_spec|]. split; [exact board_NoDup|].
  split; [reflexivity|]. split.
  - intros b Hb. destruct (cellAt_indexOf b Hb) as [E R].
    split; [apply indices_range; exact R | exact E].
  - intros i Hi. apply indexOf_cellAt, indices_range, Hi.
Qed.

(** * The torus *)

Lemma iter_newHead (n : nat) (h d : Cell) :
  on_board h -> unit_direction d ->
  Nat.iter n (fun c => newHead c d) h
  = {| x := (x h + Z.of_nat n * x d) mod BOARD_SIZE;
       y := (y h + Z.of_nat n * y d) mod BOARD_SIZE |}.
Proof.
  intros Hh Hd. pose proof (unit_direction_cases d Hd) as Hc.
  induction n as [|n IH].
  - destruct h as [hx hy]. destruct Hh as [Hx Hy]. simpl in *.
    rewrite !Z.add_0_r, !Z.mod_small by assumption. reflexivity.
  - rewrite Nat.iter_succ, IH. unfold newHead. cbn [x y].
    assert (W : forall a k, -1 <= k <= 1 ->
              wrap ((a + Z.of_nat n * k) mod BOARD_SIZE) k
              = (a + Z.of_nat (S n) * k) mod BOARD_SIZE).
    { intros a k Hk.
      destruct (wrap_mod ((a + Z.of_nat n * k) mod BOARD_SIZE) k) as [E _];
        [apply Z.mod_pos_bound; reflexivity | exact Hk |].
      rewrite E, Zplus_mod_idemp_l. f_equal. lia. }
    rewrite !W by lia. reflexivity.
Qed.

(** X15: on the board the moves of the tick are those of a torus: a step
    back undoes a step, and fifteen steps in one direction bring a cell
    back to where it was. *)
Theorem newHead_torus (h d : Cell) :
  on_board h -> unit_direction d ->
  newHead (newHead h d) (opposite d) = h /\
  Nat.iter 15 (fun c => newHead c d) h = h.
Proof.
  intros Hh Hd. split.
  - pose proof (newHead_on_board h d Hh Hd) as Hn.
    pose proof (unit_direction_cases d Hd) as Hc.
    destruct h as [hx hy]. destruct Hh as [Hx Hy]. simpl in Hx, Hy.
    destruct Hn as [Hnx Hny]. unfold newHead in *. simpl in *.
    f_equal.
    + destruct (wrap_mod (wrap hx (x d)) (- x d) Hnx) as [E _]; [lia|].
      rewrite E. destruct (wrap_mod hx (x d) Hx) as [E' _]; [lia|].
      rewrite E'. unfold BOARD_SIZE in *.
      rewrite Zplus_mod_idemp_l.
      replace (hx + x d + - x d) with hx by lia.
      apply Z.mod_small. exact Hx.
    + destruct (wrap_mod (wrap hy (y d)) (- y d) Hny) as [E _]; [lia|].
      rewrite E. destruct (wrap_mod hy (y d) Hy) as [E' _]; [lia|].
      rewrite E'. unfold BOARD_SIZE in *.
      rewrite Zplus_mod_idemp_l.
      replace (hy + y d + - y d) with hy by lia.
      apply Z.mod_small. exact Hy.
  - rewrite iter_newHead by assumption.
    destruct h as [hx hy]. destruct Hh as [Hx Hy]. cbn [x y] in *.
    unfold BOARD_SIZE in *. change (Z.of_nat 15) with 15.
    rewrite !(Z.mul_comm 15), !Z_mod_plus_full, !Z.mod_small by assumption.
    reflexivity.
Qed.

Lemma newHead_torus_witness :
  newHead (newHead {| x := 7; y := 0 |} UP) (opposite UP)
  = {| x := 7; y := 0 |} /\
  Nat.iter 15 (fun c => newHead c UP) {| x := 7; y := 0 |}
  = {| x := 7; y := 0 |}.
Proof.
  apply (newHead_torus {| x := 7; y := 0 |} UP).
  - unfold on_board, BOARD_SIZE; simpl; lia.
  - left. reflexivity.
Defined.

(** * The life of a game *)

(** X16: short of a restart the status only moves forward: a game that is
    over stays over, a running game does not go back to NotStarted, and a
    game that has not started cannot be over after one event: it has to
    run first. *)
Theorem status_moves_forward
  (c : Component) (e : Event) (tape : list Q) c' tape' :
  is_restart e = false ->
  step e c tape = Ok (c', tape') ->
  (status (st c) = GameOver -> status (st c') = GameOver) /\
  (status (st c) = Running -> status (st c') <> NotStarted) /\
  (status (st c) = NotStarted -> status (st c') <> GameOver).
Proof.
  intros He. unfold step, bind.
  destruct (handler e c tape) as [[c1 t1]| |] eqn:Hh; try discriminate.
  intros H. injection H as <- <-.
  assert (Hin : input_effect c c1 ->
    (status (st c) = GameOver -> status (st (syncRefs c1)) = GameOver) /\
    (status (st c) = Running -> status (st (syncRefs c1)) <> NotStarted) /\
    (status (st c) = NotStarted -> status (st (syncRefs c1)) <> GameOver)).
  { intros [d [p [-> [_ Hp]]]]. unfold status. simpl.
    destruct (gameOver (st c)), (isPlaying (st c)) eqn:Hpl;
      destruct Hp as [-> | [-> _]]; repeat split; congruence. }
  destruct e as [key | cx cy | cx cy | | ]; simpl in Hh;
    try discriminate.
  - injection Hh as <- <-. apply Hin, handleKey_effect.
  - injection Hh as <- <-. unfold status. simpl.
    destruct (gameOver (st c)), (isPlaying (st c));
      repeat split; congruence.
  - injection Hh as <- <-. apply Hin, handleTouchEnd_effect.
  - apply tick_cases in Hh. destruct Hh as [[_ [-> _]] | [Hrun Ht]].
    + unfold status. simpl.
      destruct (gameOver (st c)), (isPlaying (st c));
        repeat split; congruence.
    + rewrite Hrun. unfold status in Hrun |- *.
      destruct Ht as [head tl Hs Hc | head tl nf t' Hs Hc Hf Hg
                     | head tl Hs Hc Hf]; simpl;
        destruct (gameOver (st c)), (isPlaying (st c));
        repeat split; congruence.
Qed.

Lemma status_moves_forward_witness :
  exists c',
    step (KeyDown "a") neck_collision [] = Ok (c', []) /\
    status (st c') = GameOver.
Proof.
  exists neck_collision. split; [reflexivity|].
  apply (status_moves_forward neck_collision (KeyDown "a") []
           neck_collision []); reflexivity.
Defined.
